(** * A sorted set stored as a weight-balanced binary search tree

    Shallow embedding of [sorted_set_as_weight_balanced_tree.c].

    Conventions of the embedding.
    - A pointer to a node is modelled by the value of the subtree rooted at
      that node; the shared sentinel [nil_] (whose two children point back to
      itself and whose size is 0) is the constructor [NIL].
    - [u32] quantities are integers of [Z]; every arithmetic operation of the
      source on them is followed by [to_u32], the reduction modulo 2^32.
    - [bool] directions index [child]: [false] is [child[0]], [true] is
      [child[1]], and [negb dir] is [1 - dir].
    - A failed [assert] is the result [None].  The assertions that
      [*owner] equals [node_p] compare two pointers: they say that the
      owner slot designates the node at hand, which a node held by value
      does by construction, and are not represented.
    - An optional output ([GORNISHT] or a pointer to a caller variable) is an
      [option]: [None] is [GORNISHT], [Some v] is a variable holding [v]. *)

From Stdlib Require Import ZArith List Bool Lia.
From Stdlib Require Import Sorting.Sorted Sorting.Permutation.
Import ListNotations.
Local Open Scope Z_scope.

Set Implicit Arguments.

(** ** Machine integers and assertions *)

(** Modelled from the spec: the header that declares [u32], [byte],
    [GORNISHT] and [MIN] is not part of the sources.  [u32] is the type of
    the subtree-size counter and of the ranks, taken as the unsigned 32-bit
    integers; [GORNISHT] is the value that stands for "no output
    requested", distinct from any valid pointer; [MIN] is the minimum. *)
Definition u32_modulus : Z := 4294967296.

(** The value of a [u32] expression whose exact value is [z]. *)
Definition to_u32 (z : Z) : Z := z mod u32_modulus.

(** The largest number of elements for which the products
    [5 * (size + 1)] of [node_imbalanced] stay below 2^32. *)
Definition max_elements : Z := 858993459.

Notation "'do' x <- c1 ; c2" :=
  (match c1 with Some x => c2 | None => None end)
  (at level 10, x pattern, c1 at level 100, c2 at level 200).

Notation "'assert' b ; c" :=
  (if b then c else None)
  (at level 10, b at level 100, c at level 200).

(** ** The stack collaborator *)

Module Stack.

(** Modelled from the spec: [stack.h] is not part of the sources.  The
    ordered set needs push, pop (last pushed is returned first), peek without
    pop, an emptiness check and a count; the top of the stack is the head of
    the list. *)
Definition stack_s (A : Type) : Type := list A.

Definition stack_create (A : Type) : stack_s A := [].

Definition STACK_PUSH (A : Type) (st : stack_s A) (x : A) : stack_s A :=
  x :: st.

Definition STACK_POP (A : Type) (st : stack_s A) : option (A * stack_s A) :=
  match st with
  | [] => None
  | x :: rest => Some (x, rest)
  end.

Definition STACK_PEEK (A : Type) (st : stack_s A) : option A :=
  match st with
  | [] => None
  | x :: _ => Some x
  end.

Definition stack_is_empty (A : Type) (st : stack_s A) : bool :=
  match st with
  | [] => true
  | _ :: _ => false
  end.

Definition stack_num_elmnts (A : Type) (st : stack_s A) : Z :=
  Z.of_nat (length st).

End Stack.

Import Stack.

Section SortedSet.

(** The element type: a buffer of [num_bytes_per_elmnt] bytes, copied by
    value with [memcpy]. *)
Variable E : Type.

(** ** 1) binary nodes *)

Inductive binary_node_struct : Type :=
| NIL : binary_node_struct
| Node (child0 : binary_node_struct) (size_field : Z) (element : E)
       (child1 : binary_node_struct) : binary_node_struct.

(** [node_p->size]; the sentinel has size 0. *)
Definition size (node_p : binary_node_struct) : Z :=
  match node_p with
  | NIL => 0
  | Node _ s _ _ => s
  end.

(** [node_p->child[dir]]; the children of the sentinel are the sentinel. *)
Definition child (node_p : binary_node_struct) (dir : bool)
  : binary_node_struct :=
  match node_p with
  | NIL => NIL
  | Node c0 _ _ c1 => if dir then c1 else c0
  end.

(** [node_p == NIL] *)
Definition is_NIL (node_p : binary_node_struct) : bool :=
  match node_p with
  | NIL => true
  | Node _ _ _ _ => false
  end.

(** [node_p->child[dir] = c] *)
Definition set_child (node_p : binary_node_struct) (dir : bool)
  (c : binary_node_struct) : binary_node_struct :=
  match node_p with
  | NIL => NIL
  | Node c0 s e c1 => if dir then Node c0 s e c else Node c s e c1
  end.

Definition binary_node_get_element (node_p : binary_node_struct) : option E :=
  match node_p with
  | NIL => None
  | Node _ _ e _ => Some e
  end.

(** [memcpy(binary_node_get_element(node_p), element, num_bytes_per_elmnt)] *)
Definition set_element (node_p : binary_node_struct) (element : E)
  : option binary_node_struct :=
  match node_p with
  | NIL => None
  | Node c0 s _ c1 => Some (Node c0 s element c1)
  end.

Definition leaf_create (element : E) : binary_node_struct :=
  Node NIL 1 element NIL.

(** [free] has no result; what it is given is recorded: a node, named by
    the element it holds, or the header of a set. *)
Inductive freed_block : Type :=
| freed_node (element : E) : freed_block
| freed_set : freed_block.

(** [freed] is the record of the calls of [free] made so far. *)
Fixpoint subtree_destroy (node_p : binary_node_struct)
  (num_bytes_per_elmnt : Z) (freed : list freed_block) : list freed_block :=
  match node_p with
  | NIL => freed
  | Node c0 _ e c1 =>
      let freed1 := subtree_destroy c0 num_bytes_per_elmnt freed in
      let freed2 := subtree_destroy c1 num_bytes_per_elmnt freed1 in
      freed2 ++ [freed_node e]
  end.

(** The callback of [walk] acts on the state of the caller; [dir = false] is
    the walk in order, [dir = true] the walk in reverse order. *)
Fixpoint walk (St : Type) (node_p : binary_node_struct) (dir : bool)
  (fnc : E -> St -> St) (st : St) : St :=
  match node_p with
  | NIL => st
  | Node c0 _ e c1 =>
      let st1 := walk (if dir then c1 else c0) dir fnc st in
      let st2 := fnc e st1 in
      walk (if dir then c0 else c1) dir fnc st2
  end.

Definition update_size (node_p : binary_node_struct)
  : option binary_node_struct :=
  match node_p with
  | NIL => None
  | Node c0 _ e c1 => Some (Node c0 (to_u32 (1 + size c0 + size c1)) e c1)
  end.

(** [x->child[dir] = y] stores a pointer, so the later [update_size(y)] is
    seen through [x]; with values, [x] receives [y] once [y] is final. *)
Definition rotation (y : binary_node_struct) (dir : bool)
  : option binary_node_struct :=
  let x := child y (negb dir) in
  let temp := size y in
  assert negb (is_NIL y);
  assert negb (is_NIL x);
  let y1 := set_child y (negb dir) (child x dir) in
  do y2 <- update_size y1;
  do x2 <- update_size (set_child x dir y2);
  assert (size x2 =? temp);
  Some x2.

Definition double_rotation (z : binary_node_struct) (dir : bool)
  : option binary_node_struct :=
  let y := child z (negb dir) in
  let x := child y dir in
  let temp := size z in
  assert negb (is_NIL z);
  assert negb (is_NIL y);
  assert negb (is_NIL x);
  let y1 := set_child y dir (child x (negb dir)) in
  let z1 := set_child z (negb dir) (child x dir) in
  do z2 <- update_size z1;
  do y2 <- update_size y1;
  do x2 <- update_size (set_child (set_child x (negb dir) y2) dir z2);
  assert (size x2 =? temp);
  Some x2.

Definition node_imbalanced (node_p : binary_node_struct) (n1 n2 : Z)
  (dir : bool) : option bool :=
  assert negb (is_NIL node_p);
  assert (0 <? Z.min n1 n2);
  Some (to_u32 (n1 * to_u32 (size (child node_p (negb dir)) + 1))
        <? to_u32 (n2 * to_u32 (size (child node_p dir) + 1))).

(** The body of [for(dir = 0; dir <= 1; dir += 1)]: [dirs] lists the
    directions still to examine. *)
Fixpoint node_rebalance_for (node_p : binary_node_struct) (dirs : list bool)
  : option binary_node_struct :=
  match dirs with
  | [] => Some node_p
  | dir :: rest =>
      do heavy <- node_imbalanced node_p 5 2 dir;
      if heavy then
        do same_side <- node_imbalanced (child node_p dir) 2 3 dir;
        if same_side then rotation node_p (negb dir)
        else double_rotation node_p (negb dir)
      else node_rebalance_for node_p rest
  end.

(** [node_rebalance(node_p, owner)]: the result is the node that [*owner]
    designates when the call returns ([node_p] itself, updated in place, when
    no rotation fires). *)
Definition node_rebalance (node_p : binary_node_struct)
  : option binary_node_struct :=
  assert negb (is_NIL node_p);
  node_rebalance_for node_p [false; true].

(** ** 2) sorted set *)

Record sorted_set_s : Type := {
  root_p : binary_node_struct;
  is_match : E -> E -> bool;
  is_less : E -> E -> bool;
  num_bytes_per_elmnt : Z
}.

(** [sorted_set_p->root_p = r] *)
Definition set_root_p (sorted_set_p : sorted_set_s) (r : binary_node_struct)
  : sorted_set_s :=
  {| root_p := r;
     is_match := is_match sorted_set_p;
     is_less := is_less sorted_set_p;
     num_bytes_per_elmnt := num_bytes_per_elmnt sorted_set_p |}.

Definition sorted_set_get_num_elements (sorted_set_p : sorted_set_s) : Z :=
  size (root_p sorted_set_p).

Definition sorted_set_create (num_bytes : Z) (is_match_f is_less_f : E -> E -> bool)
  : sorted_set_s :=
  {| root_p := NIL;
     is_match := is_match_f;
     is_less := is_less_f;
     num_bytes_per_elmnt := num_bytes |}.

Definition sorted_set_destroy (sorted_set_p : sorted_set_s)
  (freed : list freed_block) : list freed_block :=
  let freed1 :=
    subtree_destroy (root_p sorted_set_p)
      (num_bytes_per_elmnt sorted_set_p) freed in
  freed1 ++ [freed_set].

(** *** The search path

    The nodes recorded on [search_nodes] are held by value: while a node is
    on the path, its link [child[dir]] towards the next node of the path is
    the one written through its owner slot, and the node is linked into its
    own owner when it is popped.  An owner is therefore either the root
    field of the set or the [child[dir]] field of the node on top of the
    stack. *)

Inductive owner_slot : Type :=
| owner_root_p : owner_slot
| owner_child (dir : bool) : owner_slot.

Definition get_owner (sorted_set_p : sorted_set_s)
  (search_nodes : stack_s binary_node_struct) (search_dirs : stack_s bool)
  : option owner_slot :=
  assert (stack_num_elmnts search_nodes =? stack_num_elmnts search_dirs);
  if stack_is_empty search_nodes then Some owner_root_p
  else
    do parent <- STACK_PEEK search_nodes;
    assert negb (is_NIL parent);
    do dir <- STACK_PEEK search_dirs;
    Some (owner_child dir).

(** [*owner] *)
Definition load_owner (sorted_set_p : sorted_set_s)
  (search_nodes : stack_s binary_node_struct) (owner : owner_slot)
  : binary_node_struct :=
  match owner, search_nodes with
  | owner_root_p, _ => root_p sorted_set_p
  | owner_child dir, parent :: _ => child parent dir
  | owner_child _, [] => NIL
  end.

(** [*owner = v] *)
Definition store_owner (sorted_set_p : sorted_set_s)
  (search_nodes : stack_s binary_node_struct) (owner : owner_slot)
  (v : binary_node_struct)
  : sorted_set_s * stack_s binary_node_struct :=
  match owner, search_nodes with
  | owner_root_p, _ => (set_root_p sorted_set_p v, search_nodes)
  | owner_child dir, parent :: rest =>
      (sorted_set_p, set_child parent dir v :: rest)
  | owner_child _, [] => (sorted_set_p, [])
  end.

(** The nodes of a path that is dropped without being unwound are linked
    again, top of the stack first, down to the root field. *)
Fixpoint relink (sorted_set_p : sorted_set_s)
  (search_nodes : stack_s binary_node_struct) (search_dirs : stack_s bool)
  (node_p : binary_node_struct) : sorted_set_s :=
  match search_nodes, search_dirs with
  | parent :: nodes, dir :: dirs =>
      relink sorted_set_p nodes dirs (set_child parent dir node_p)
  | _, _ => set_root_p sorted_set_p node_p
  end.

(** The [while] loop of [search_path_rebalance]; every iteration pops one
    node, so [fuel = length search_nodes] iterations empty the stack. *)
Fixpoint search_path_rebalance_while (fuel : nat) (sorted_set_p : sorted_set_s)
  (search_nodes : stack_s binary_node_struct) (search_dirs : stack_s bool)
  : option (sorted_set_s * stack_s binary_node_struct * stack_s bool) :=
  if stack_is_empty search_nodes
  then Some (sorted_set_p, search_nodes, search_dirs)
  else
    match fuel with
    | O => None
    | S fuel' =>
        do (current, nodes1) <- STACK_POP search_nodes;
        do (junk, dirs1) <- STACK_POP search_dirs;
        do owner <- get_owner sorted_set_p nodes1 dirs1;
        do current1 <- update_size current;
        do subtree <- node_rebalance current1;
        let (set2, nodes2) := store_owner sorted_set_p nodes1 owner subtree in
        search_path_rebalance_while fuel' set2 nodes2 dirs1
    end.

Definition search_path_rebalance (sorted_set_p : sorted_set_s)
  (search_nodes : stack_s binary_node_struct) (search_dirs : stack_s bool)
  : option (sorted_set_s * stack_s binary_node_struct * stack_s bool) :=
  assert (stack_num_elmnts search_nodes =? stack_num_elmnts search_dirs);
  search_path_rebalance_while (length search_nodes) sorted_set_p
    search_nodes search_dirs.

(** The [while(node_p->child[0] != NIL)] loop of [remove_helper]. *)
Fixpoint remove_helper_while (node_p : binary_node_struct)
  (search_nodes : stack_s binary_node_struct) (search_dirs : stack_s bool)
  : binary_node_struct * stack_s binary_node_struct * stack_s bool :=
  match node_p with
  | NIL => (node_p, search_nodes, search_dirs)
  | Node c0 _ _ _ =>
      if is_NIL c0 then (node_p, search_nodes, search_dirs)
      else remove_helper_while c0 (STACK_PUSH search_nodes node_p)
             (STACK_PUSH search_dirs false)
  end.

(** [memcpy] into the node that was pushed when the stack held [depth]
    entries: the stack entry and the pointer [orig_node_p] are one node. *)
Fixpoint store_element_at (search_nodes : stack_s binary_node_struct)
  (depth : nat) (element : E) : option (stack_s binary_node_struct) :=
  match search_nodes with
  | [] => None
  | node_p :: rest =>
      if Nat.eqb (length rest) depth then
        do node1 <- set_element node_p element;
        Some (node1 :: rest)
      else
        do rest1 <- store_element_at rest depth element;
        Some (node_p :: rest1)
  end.

Definition remove_helper (sorted_set_p : sorted_set_s)
  (node_p : binary_node_struct)
  (search_nodes : stack_s binary_node_struct) (search_dirs : stack_s bool)
  : option (sorted_set_s * stack_s binary_node_struct * stack_s bool) :=
  assert negb (is_NIL node_p);
  assert (stack_num_elmnts search_nodes =? stack_num_elmnts search_dirs);
  do (replacement, nodes1, dirs1) <-
    (if is_NIL (child node_p false)
     then Some (child node_p true, search_nodes, search_dirs)
     else if is_NIL (child node_p true)
     then Some (child node_p false, search_nodes, search_dirs)
     else
       let '(succ, nodes1, dirs1) :=
         remove_helper_while (child node_p true)
           (STACK_PUSH search_nodes node_p) (STACK_PUSH search_dirs true) in
       do e <- binary_node_get_element succ;
       do nodes2 <- store_element_at nodes1 (length search_nodes) e;
       Some (child succ true, nodes2, dirs1));
  do owner <- get_owner sorted_set_p nodes1 dirs1;
  let (set2, nodes2) := store_owner sorted_set_p nodes1 owner replacement in
  Some (set2, nodes2, dirs1).

(** The [while(current != NIL)] loop of [sorted_set_search].  [rank] is the
    caller's rank variable ([None] when [calc_rank] is false), [copy] the
    caller's element buffer ([None] when [copy_if_found] is false). *)
Fixpoint sorted_set_search_while (sorted_set_p : sorted_set_s) (element : E)
  (construct_search_path : bool) (current : binary_node_struct)
  (search_nodes : stack_s binary_node_struct) (search_dirs : stack_s bool)
  (copy : option E) (rank : option Z)
  : bool * stack_s binary_node_struct * stack_s bool * option E * option Z :=
  match current with
  | NIL => (false, search_nodes, search_dirs, copy, rank)
  | Node c0 _ e c1 =>
      let nodes1 :=
        if construct_search_path then STACK_PUSH search_nodes current
        else search_nodes in
      if is_match sorted_set_p element e then
        (true, nodes1, search_dirs,
         option_map (fun _ => e) copy,
         option_map (fun r => to_u32 (r + size c0)) rank)
      else
        let dir := if is_less sorted_set_p element e then false else true in
        let rank1 :=
          if dir then option_map (fun r => to_u32 (r + to_u32 (1 + size c0))) rank
          else rank in
        let dirs1 :=
          if construct_search_path then STACK_PUSH search_dirs dir
          else search_dirs in
        sorted_set_search_while sorted_set_p element construct_search_path
          (if dir then c1 else c0) nodes1 dirs1 copy rank1
  end.

(** The stacks are [None] for [GORNISHT]. *)
Definition sorted_set_search (sorted_set_p : sorted_set_s) (element : E)
  (construct_search_path : bool)
  (search_nodes : option (stack_s binary_node_struct))
  (search_dirs : option (stack_s bool))
  (element_copy_p : option E) (rank_copy_p : option Z)
  : option (bool * stack_s binary_node_struct * stack_s bool
            * option E * option Z) :=
  let current := root_p sorted_set_p in
  let rank1 := option_map (fun _ => 1) rank_copy_p in
  match construct_search_path, search_nodes, search_dirs with
  | true, Some nodes, Some dirs =>
      assert (stack_is_empty nodes && stack_is_empty dirs);
      Some (sorted_set_search_while sorted_set_p element true current
              nodes dirs element_copy_p rank1)
  | false, None, None =>
      Some (sorted_set_search_while sorted_set_p element false current
              [] [] element_copy_p rank1)
  | _, _, _ => None
  end.

Definition sorted_set_contains (sorted_set_p : sorted_set_s) (element : E)
  (element_found : option E) (rank_copy_p : option Z)
  : option (bool * option E * option Z) :=
  do (found, _, _, copy, rank) <-
    sorted_set_search sorted_set_p element false None None
      element_found rank_copy_p;
  Some (found, copy, rank).

(** The result is the return value, the set after the call and the caller's
    rank variable after the call. *)
Definition sorted_set_insert_or_remove (sorted_set_p : sorted_set_s)
  (element : E) (op_insert : bool) (rank_copy_p : option Z)
  : option (bool * sorted_set_s * option Z) :=
  let search_nodes := stack_create binary_node_struct in
  let search_dirs := stack_create bool in
  do (already_inside, search_nodes, search_dirs, _, rank) <-
    sorted_set_search sorted_set_p element true (Some search_nodes)
      (Some search_dirs) None rank_copy_p;
  if already_inside then
    assert (stack_num_elmnts search_nodes
            =? 1 + stack_num_elmnts search_dirs);
    do (node_p, search_nodes) <- STACK_POP search_nodes;
    do stored <- binary_node_get_element node_p;
    assert (is_match sorted_set_p element stored);
    if op_insert then
      do node1 <- set_element node_p element;
      Some (already_inside, relink sorted_set_p search_nodes search_dirs node1,
            rank)
    else
      do (set1, search_nodes, search_dirs) <-
        remove_helper sorted_set_p node_p search_nodes search_dirs;
      do (set2, _, _) <- search_path_rebalance set1 search_nodes search_dirs;
      Some (already_inside, set2, rank)
  else if op_insert then
    do owner <- get_owner sorted_set_p search_nodes search_dirs;
    assert (is_NIL (load_owner sorted_set_p search_nodes owner));
    let (set1, search_nodes) :=
      store_owner sorted_set_p search_nodes owner (leaf_create element) in
    do (set2, _, _) <- search_path_rebalance set1 search_nodes search_dirs;
    Some (already_inside, set2, rank)
  else Some (already_inside, sorted_set_p, rank).

Definition sorted_set_insert (sorted_set_p : sorted_set_s) (element : E)
  (rank_copy_p : option Z) : option (bool * sorted_set_s * option Z) :=
  sorted_set_insert_or_remove sorted_set_p element true rank_copy_p.

Definition sorted_set_remove (sorted_set_p : sorted_set_s) (element : E)
  (rank_copy_p : option Z) : option (bool * sorted_set_s * option Z) :=
  sorted_set_insert_or_remove sorted_set_p element false rank_copy_p.

(** The [while(true)] loop of [sorted_set_search_by_rank].  On the sentinel
    [current->size] is 0, so [assert(1 <= rank)] and
    [assert(rank <= current->size)] cannot both pass there. *)
Fixpoint sorted_set_search_by_rank_while (construct_search_path : bool)
  (current : binary_node_struct) (rank : Z)
  (search_nodes : stack_s binary_node_struct) (search_dirs : stack_s bool)
  (copy : option E)
  : option (stack_s binary_node_struct * stack_s bool * option E) :=
  assert (1 <=? rank);
  assert (rank <=? size current);
  match current with
  | NIL => None
  | Node c0 _ e c1 =>
      let nodes1 :=
        if construct_search_path then STACK_PUSH search_nodes current
        else search_nodes in
      if rank =? to_u32 (1 + size c0) then
        Some (nodes1, search_dirs, option_map (fun _ => e) copy)
      else
        let dir := if rank <? to_u32 (1 + size c0) then false else true in
        let rank1 :=
          if dir then to_u32 (rank - to_u32 (1 + size c0)) else rank in
        let dirs1 :=
          if construct_search_path then STACK_PUSH search_dirs dir
          else search_dirs in
        sorted_set_search_by_rank_while construct_search_path
          (if dir then c1 else c0) rank1 nodes1 dirs1 copy
  end.

Definition sorted_set_search_by_rank (sorted_set_p : sorted_set_s) (rank : Z)
  (construct_search_path : bool)
  (search_nodes : option (stack_s binary_node_struct))
  (search_dirs : option (stack_s bool))
  (element_copy_p : option E)
  : option (stack_s binary_node_struct * stack_s bool * option E) :=
  let current := root_p sorted_set_p in
  match construct_search_path, search_nodes, search_dirs with
  | true, Some nodes, Some dirs =>
      assert (stack_is_empty nodes && stack_is_empty dirs);
      sorted_set_search_by_rank_while true current rank nodes dirs
        element_copy_p
  | false, None, None =>
      sorted_set_search_by_rank_while false current rank [] []
        element_copy_p
  | _, _, _ => None
  end.

(** The result is the caller's element buffer after the call. *)
Definition sorted_set_get_element_by_rank (sorted_set_p : sorted_set_s)
  (rank : Z) (element_copy_p : option E) : option (option E) :=
  do (_, _, copy) <-
    sorted_set_search_by_rank sorted_set_p rank false None None
      element_copy_p;
  Some copy.

Definition sorted_set_remove_by_rank (sorted_set_p : sorted_set_s)
  (rank : Z) (element_copy_p : option E)
  : option (sorted_set_s * option E) :=
  let search_nodes := stack_create binary_node_struct in
  let search_dirs := stack_create bool in
  do (search_nodes, search_dirs, copy) <-
    sorted_set_search_by_rank sorted_set_p rank true (Some search_nodes)
      (Some search_dirs) element_copy_p;
  assert (stack_num_elmnts search_nodes =? 1 + stack_num_elmnts search_dirs);
  do (node_p, search_nodes) <- STACK_POP search_nodes;
  do (set1, search_nodes, search_dirs) <-
    remove_helper sorted_set_p node_p search_nodes search_dirs;
  do (set2, _, _) <- search_path_rebalance set1 search_nodes search_dirs;
  Some (set2, copy).

Definition walk_in_order (St : Type) (sorted_set_p : sorted_set_s)
  (fnc : E -> St -> St) (st : St) : St :=
  walk (root_p sorted_set_p) false fnc st.

Definition walk_in_reverse (St : Type) (sorted_set_p : sorted_set_s)
  (fnc : E -> St -> St) (st : St) : St :=
  walk (root_p sorted_set_p) true fnc st.

End SortedSet.

Arguments NIL {E}.
Arguments freed_set {E}.

(** The tree with its payloads erased: links and size fields only. *)
Fixpoint shape (E : Type) (node_p : binary_node_struct E)
  : binary_node_struct unit :=
  match node_p with
  | NIL => NIL
  | Node c0 s _ c1 => Node (shape c0) s tt (shape c1)
  end.

(** ** 3) test *)

(** An element of the test is a [u64], held as an integer of [Z]. *)
Definition is_match_u64 (a b : Z) : bool := a =? b.

Definition is_less_u64 (a b : Z) : bool := a <? b.

Definition arr : list Z :=
  [  5;  8; 22; 46; 19; 93; 80;  6; 64; 97;
    71; 63; 85; 11; 44; 43; 41; 59; 68; 91;
    87; 72; 15; 30; 77;100; 83; 61; 12; 98;
    13; 73; 48; 16; 84; 28; 32; 82; 24; 50;
     7; 53; 26; 78; 60; 92; 95; 18; 67; 21;
    33; 89; 38; 27; 17; 52; 79; 86; 56; 76;
    45; 54; 20; 58; 66; 37;  2; 70; 81;  9;
     1; 94; 40; 55; 42; 36; 96; 14; 74; 51;
     4; 57; 75; 39; 62; 90; 29; 69;  3; 49;
    31; 47; 34; 65; 25; 10; 23; 99; 88; 35].

(** The insertion loop of [sorted_set_tmp_test]. *)
Fixpoint insert_all (sorted_set_p : sorted_set_s Z) (elements : list Z)
  : option (sorted_set_s Z) :=
  match elements with
  | [] => Some sorted_set_p
  | x :: rest =>
      do (_, set1, _) <- sorted_set_insert sorted_set_p x None;
      insert_all set1 rest
  end.

Definition print_u64 (a : Z) (out : list Z) : list Z := out ++ [a].

(** [sorted_set_tmp_test]: the result is the output of the two walks when
    every assertion of the test passes. *)
Definition sorted_set_tmp_test : option (list Z * list Z) :=
  let sorted_set_p := sorted_set_create 8 is_match_u64 is_less_u64 in
  do set1 <- insert_all sorted_set_p arr;
  let out1 := walk_in_order set1 print_u64 [] in
  let x := 18446744073709551615 in
  do x <- sorted_set_get_element_by_rank set1 7 (Some x);
  assert (match x with Some v => 7 =? v | None => false end);
  do (set2, x) <- sorted_set_remove_by_rank set1 52 x;
  assert (match x with Some v => 52 =? v | None => false end);
  let out2 := walk_in_reverse set2 print_u64 [] in
  assert (forallb
            (fun i : Z =>
               match sorted_set_contains set2 i None None with
               | Some (found, _, _) =>
                   Bool.eqb found ((i <=? 100) && negb (i =? 0)
                                   && negb (i =? 52))
               | None => false
               end)
            (map Z.of_nat (seq 0 120)));
  Some (out1, out2).

(** ** Invariants and auxiliary notions of the verification *)

Section PathNotions.

Variable E : Type.
Implicit Types t l r : binary_node_struct E.

(** The elements in the order of an in-order traversal. *)
Fixpoint inorder (node_p : binary_node_struct E) : list E :=
  match node_p with
  | NIL => []
  | Node c0 _ e c1 => inorder c0 ++ e :: inorder c1
  end.

(** Invariant I1: every real node stores 1 + the sizes of its children. *)
Fixpoint I1 (node_p : binary_node_struct E) : Prop :=
  match node_p with
  | NIL => True
  | Node c0 s _ c1 => s = 1 + size c0 + size c1 /\ I1 c0 /\ I1 c1
  end.

(** The weight-balance condition of one node, for both directions. *)
Definition balanced_at (node_p : binary_node_struct E) : Prop :=
  forall dir : bool,
    5 * (size (child node_p (negb dir)) + 1) >= 2 * (size (child node_p dir) + 1).

(** Invariant I3: every real node is weight balanced. *)
Fixpoint I3 (node_p : binary_node_struct E) : Prop :=
  match node_p with
  | NIL => True
  | Node c0 _ _ c1 => balanced_at node_p /\ I3 c0 /\ I3 c1
  end.

(** The recursive checker of I1 and I3 over a whole tree. *)
Fixpoint check_invariants (node_p : binary_node_struct E) : bool :=
  match node_p with
  | NIL => true
  | Node c0 s _ c1 =>
      (s =? 1 + size c0 + size c1)
      && (2 * (size c0 + 1) <=? 5 * (size c1 + 1))
      && (2 * (size c1 + 1) <=? 5 * (size c0 + 1))
      && check_invariants c0 && check_invariants c1
  end.


(** Balance up to the effect of one insertion or removal below a node. *)
Definition near_balanced l r : Prop :=
  5 * (size r + 2) >= 2 * (size l + 1) /\ 5 * (size l + 2) >= 2 * (size r + 1).

(** [path root nodes dirs cur]: the stacks record the descent from [root]
    to [cur], the last visited node on top. *)
Inductive path (root : binary_node_struct E)
  : list (binary_node_struct E) -> list bool -> binary_node_struct E -> Prop :=
| path_root : path root [] [] root
| path_step n nodes dir dirs :
    path root nodes dirs n -> is_NIL n = false ->
    path root (n :: nodes) (dir :: dirs) (child n dir).

(** The tree obtained by linking [t] below the recorded nodes. *)
Fixpoint plug (nodes : list (binary_node_struct E)) (dirs : list bool) t
  : binary_node_struct E :=
  match nodes, dirs with
  | parent :: ns, dir :: ds => plug ns ds (set_child parent dir t)
  | _, _ => t
  end.

(** The unwinding of the recorded path, as a function of the subtree [t]
    written into the owner slot of the top of the stack. *)
Fixpoint rebuild (nodes : list (binary_node_struct E)) (dirs : list bool) t
  : option (binary_node_struct E) :=
  match nodes, dirs with
  | parent :: ns, dir :: ds =>
      do current <- update_size (set_child parent dir t);
      do subtree <- node_rebalance current;
      rebuild ns ds subtree
  | _, _ => Some t
  end.

(** The elements that precede, respectively follow, the subtree below the
    recorded path in the in-order sequence. *)
Fixpoint ctx_before (nodes : list (binary_node_struct E)) (dirs : list bool)
  : list E :=
  match nodes, dirs with
  | Node c0 _ e _ :: ns, true :: ds => ctx_before ns ds ++ inorder c0 ++ [e]
  | _ :: ns, _ :: ds => ctx_before ns ds
  | _, _ => []
  end.

Fixpoint ctx_after (nodes : list (binary_node_struct E)) (dirs : list bool)
  : list E :=
  match nodes, dirs with
  | Node _ _ e c1 :: ns, false :: ds => e :: inorder c1 ++ ctx_after ns ds
  | _ :: ns, _ :: ds => ctx_after ns ds
  | _, _ => []
  end.

(** The recorded nodes satisfy I1, the slot of the top node holds a subtree
    of size [c], and the bottom node has size [R]. *)
Fixpoint frames_ok (nodes : list (binary_node_struct E)) (dirs : list bool)
  (c R : Z) : Prop :=
  match nodes, dirs with
  | [], [] => c = R
  | n :: ns, dir :: ds =>
      is_NIL n = false /\ I1 n /\ size (child n dir) = c /\
      frames_ok ns ds (size n) R
  | _, _ => False
  end.

End PathNotions.

(** The contract of the two callbacks: [is_less] is a strict total order
    on the keys and [is_match] is the equality of keys. *)
Record order_laws (E : Type) (matches less : E -> E -> bool) : Prop := {
  match_refl : forall a, matches a a = true;
  less_not_match :
    forall a b, less a b = true -> matches a b = false /\ matches b a = false;
  less_trans :
    forall a b c, less a b = true -> less b c = true -> less a c = true;
  less_total :
    forall a b, matches a b = false -> less a b = false -> less b a = true;
  match_less_l :
    forall a b c, matches a b = true -> less b c = true -> less a c = true;
  match_less_r :
    forall a b c, matches a b = true -> less c b = true -> less c a = true
}.

(** Invariant I2: the in-order sequence is strictly increasing. *)
Definition I2 (E : Type) (sorted_set_p : sorted_set_s E)
  (node_p : binary_node_struct E) : Prop :=
  StronglySorted (fun a b => is_less sorted_set_p a b = true) (inorder node_p).

(** The sets reachable from [s0] by the mutating operations, insertions
    being made only into sets of fewer than [cap] elements.  A call whose
    assertions fail produces no set. *)
Inductive reachable (E : Type) (cap : Z) (s0 : sorted_set_s E)
  : sorted_set_s E -> Prop :=
| reachable_start : reachable cap s0 s0
| reachable_insert s e rank_copy_p found s' rank' :
    reachable cap s0 s ->
    sorted_set_get_num_elements s < cap ->
    sorted_set_insert s e rank_copy_p = Some (found, s', rank') ->
    reachable cap s0 s'
| reachable_remove s e rank_copy_p found s' rank' :
    reachable cap s0 s ->
    sorted_set_remove s e rank_copy_p = Some (found, s', rank') ->
    reachable cap s0 s'
| reachable_remove_by_rank s rank element_copy_p s' copy' :
    reachable cap s0 s ->
    sorted_set_remove_by_rank s rank element_copy_p = Some (s', copy') ->
    reachable cap s0 s'.

(** The state maintained by every operation. *)
Definition set_invariant (E : Type) (s : sorted_set_s E) : Prop :=
  I1 (root_p s) /\ I3 (root_p s) /\ size (root_p s) <= max_elements /\
  (order_laws (is_match s) (is_less s) -> I2 s (root_p s)).

(** A callback for the walks that records the elements it is given. *)
Definition record_element (E : Type) (element : E) (trace : list E) : list E :=
  trace ++ [element].

(** The 1-based position of [element] among the stored keys: one more than
    the number of stored elements that are less than it. *)
Definition position (E : Type) (sorted_set_p : sorted_set_s E) (element : E)
  : Z :=
  1 + Z.of_nat
        (length (filter (fun y => is_less sorted_set_p y element)
                   (inorder (root_p sorted_set_p)))).

(** Sets of [u64] elements, as in the test. *)
Definition u64_set (root : binary_node_struct Z) : sorted_set_s Z :=
  {| root_p := root;
     is_match := is_match_u64;
     is_less := is_less_u64;
     num_bytes_per_elmnt := 8 |}.

Definition u64_leaf (x : Z) : binary_node_struct Z := Node NIL 1 x NIL.

(** The three-element set of the examples: 2 at the root, 1 and 3 below. *)
Definition u64_set_123 : sorted_set_s Z :=
  u64_set (Node (u64_leaf 1) 3 2 (u64_leaf 3)).

(** * Verification *)

Unset Implicit Arguments.

#[local] Arguments Z.add _ _ : simpl never.
#[local] Arguments Z.sub _ _ : simpl never.
#[local] Arguments Z.mul _ _ : simpl never.
#[local] Arguments Z.ltb _ _ : simpl never.
#[local] Arguments Z.leb _ _ : simpl never.
#[local] Arguments Z.eqb _ _ : simpl never.
#[local] Arguments Z.min _ _ : simpl never.
#[local] Arguments Z.of_nat _ : simpl never.
#[local] Arguments to_u32 _ : simpl never.

(** ** Machine arithmetic *)

Lemma to_u32_small (z : Z) : 0 <= z < u32_modulus -> to_u32 z = z.
Proof. intros H. unfold to_u32. now apply Z.mod_small. Qed.

Lemma u32_modulus_val : u32_modulus = 4294967296.
Proof. reflexivity. Qed.

Lemma max_elements_val : max_elements = 858993459.
Proof. reflexivity. Qed.

Global Opaque u32_modulus max_elements.

Ltac u32_side :=
  rewrite ?u32_modulus_val, ?max_elements_val in *; lia.

Ltac u32 :=
  repeat match goal with
  | |- context [to_u32 ?z] => rewrite (to_u32_small z) by u32_side
  end.

Ltac list_assoc :=
  simpl; rewrite ?app_nil_r; repeat (rewrite <- app_assoc; simpl);
  rewrite ?app_nil_r; reflexivity.

Ltac use_search H :=
  match goal with
  | |- context [sorted_set_search ?a ?b ?c ?d ?f ?g ?h] =>
      let r := match type of H with _ = ?r => r end in
      replace (sorted_set_search a b c d f g h) with r
        by (symmetry; exact H)
  | |- context [sorted_set_search_by_rank ?a ?b ?c ?d ?f ?g] =>
      let r := match type of H with _ = ?r => r end in
      replace (sorted_set_search_by_rank a b c d f g) with r
        by (symmetry; exact H)
  end.

Ltac assert_eqb :=
  repeat match goal with
  | |- context [?a =? ?b] =>
      replace (a =? b) with true by (symmetry; apply Z.eqb_eq; lia)
  end.

(** ** Nodes *)

Section NodeFacts.

Variable E : Type.
Implicit Types t l r A B C D : binary_node_struct E.

Lemma I1_size_nonneg t : I1 t -> 0 <= size t.
Proof.
  induction t as [|l IHl s e r IHr]; simpl; [lia|].
  intros (Hs & Hl & Hr). specialize (IHl Hl). specialize (IHr Hr). lia.
Qed.

Lemma I1_size_length t : I1 t -> size t = Z.of_nat (length (inorder t)).
Proof.
  induction t as [|l IHl s e r IHr]; simpl; [reflexivity|].
  intros (Hs & Hl & Hr). rewrite length_app. simpl length.
  rewrite Hs, (IHl Hl), (IHr Hr). lia.
Qed.

Lemma I1_child t dir : I1 t -> I1 (child t dir).
Proof. destruct t, dir; simpl; tauto. Qed.

Lemma I3_child t dir : I3 t -> I3 (child t dir).
Proof. destruct t, dir; simpl; tauto. Qed.

Lemma balanced_at_iff l s e r :
  balanced_at (Node l s e r) <->
  5 * (size r + 1) >= 2 * (size l + 1) /\ 5 * (size l + 1) >= 2 * (size r + 1).
Proof.
  unfold balanced_at. split.
  - intros H. split; [apply (H false) | apply (H true)].
  - intros [H0 H1] [|]; simpl; assumption.
Qed.

Lemma check_invariants_sound t : check_invariants t = true -> I1 t /\ I3 t.
Proof.
  induction t as [|l IHl s e r IHr]; simpl; [tauto|].
  rewrite !andb_true_iff, Z.eqb_eq, !Z.leb_le.
  intros ((((Hs & H0) & H1) & Hl) & Hr).
  destruct (IHl Hl), (IHr Hr).
  rewrite balanced_at_iff. repeat split; trivial; lia.
Qed.



(** *** Rotations, in explicit form *)

Lemma rotation_right A B C sx ex sy ey :
  0 <= size A -> 0 <= size B -> 0 <= size C ->
  sx = 1 + size B + size C -> sy = 1 + sx + size A -> sy < u32_modulus ->
  rotation (Node (Node B sx ex C) sy ey A) true
  = Some (Node B sy ex (Node C (1 + size C + size A) ey A)).
Proof.
  intros. unfold rotation. simpl. u32. simpl. u32. assert_eqb.
  do 2 f_equal. lia.
Qed.

Lemma rotation_left A B C sx ex sy ey :
  0 <= size A -> 0 <= size B -> 0 <= size C ->
  sx = 1 + size C + size B -> sy = 1 + size A + sx -> sy < u32_modulus ->
  rotation (Node A sy ey (Node C sx ex B)) false
  = Some (Node (Node A (1 + size A + size C) ey C) sy ex B).
Proof.
  intros. unfold rotation. simpl. u32. simpl. u32. assert_eqb.
  do 2 f_equal. lia.
Qed.

Lemma double_rotation_right A B C D sx ex sy ey sz ez :
  0 <= size A -> 0 <= size B -> 0 <= size C -> 0 <= size D ->
  sx = 1 + size C + size D -> sy = 1 + size B + sx ->
  sz = 1 + sy + size A -> sz < u32_modulus ->
  double_rotation (Node (Node B sy ey (Node C sx ex D)) sz ez A) true
  = Some (Node (Node B (1 + size B + size C) ey C) sz ex
               (Node D (1 + size D + size A) ez A)).
Proof.
  intros. unfold double_rotation. simpl. u32. simpl. u32. assert_eqb.
  do 2 f_equal. lia.
Qed.

Lemma double_rotation_left A B C D sx ex sy ey sz ez :
  0 <= size A -> 0 <= size B -> 0 <= size C -> 0 <= size D ->
  sx = 1 + size D + size C -> sy = 1 + sx + size B ->
  sz = 1 + size A + sy -> sz < u32_modulus ->
  double_rotation (Node A sz ez (Node (Node D sx ex C) sy ey B)) false
  = Some (Node (Node A (1 + size A + size D) ez D) sz ex
               (Node C (1 + size C + size B) ey B)).
Proof.
  intros. unfold double_rotation. simpl. u32. simpl. u32. assert_eqb.
  do 2 f_equal. lia.
Qed.


(** *** The rebalancing step

    A node whose children satisfy I1 is rebalanced without any failed
    assertion; its size and its in-order sequence are kept.  When moreover
    the children are balanced and the node is out of balance by the effect
    of at most one insertion or removal below it, the result satisfies I3. *)

Lemma node_rebalance_ok l s e r :
  I1 l -> I1 r -> s = 1 + size l + size r -> s <= max_elements ->
  exists t,
    node_rebalance (Node l s e r) = Some t /\
    I1 t /\ size t = s /\ inorder t = inorder (Node l s e r) /\
    (I3 l -> I3 r -> near_balanced l r -> I3 t).
Proof.
  intros Hl Hr Hs Hmax.
  pose proof (I1_size_nonneg _ Hl) as Hl0.
  pose proof (I1_size_nonneg _ Hr) as Hr0.
  unfold node_rebalance, node_rebalance_for, near_balanced. simpl.
  u32.
  destruct (5 * (size r + 1) <? 2 * (size l + 1)) eqn:Hh0.
  - (* child[0] is heavy *)
    apply Z.ltb_lt in Hh0.
    destruct l as [|B sl el C]; simpl in *; [lia|].
    destruct Hl as (Hsl & HB & HC).
    pose proof (I1_size_nonneg _ HB). pose proof (I1_size_nonneg _ HC).
    u32.
    destruct (2 * (size C + 1) <? 3 * (size B + 1)) eqn:Hin.
    + apply Z.ltb_lt in Hin.
      rewrite rotation_right by (trivial; u32_side).
      eexists; split; [reflexivity|]. simpl.
      split; [|split; [|split]]; [repeat split; trivial; lia | lia | | ].
      * list_assoc.
      * intros (Hbl & HB3 & HC3) Hr3 Hnear.
        rewrite balanced_at_iff in Hbl. simpl in *.
        rewrite !balanced_at_iff. simpl. repeat split; trivial; lia.
    + apply Z.ltb_ge in Hin.
      destruct C as [|C1 sc ec C2]; simpl in *; [lia|].
      destruct HC as (Hsc & HC1 & HC2).
      pose proof (I1_size_nonneg _ HC1). pose proof (I1_size_nonneg _ HC2).
      rewrite double_rotation_right by (trivial; u32_side).
      eexists; split; [reflexivity|]. simpl.
      split; [|split; [|split]]; [repeat split; trivial; lia | lia | | ].
      * list_assoc.
      * intros (Hbl & HB3 & (Hbc & HC13 & HC23)) Hr3 Hnear.
        rewrite balanced_at_iff in Hbl, Hbc. simpl in *.
        rewrite !balanced_at_iff. simpl. repeat split; trivial; lia.
  - apply Z.ltb_ge in Hh0.
    u32.
    destruct (5 * (size l + 1) <? 2 * (size r + 1)) eqn:Hh1.
    + (* child[1] is heavy *)
      apply Z.ltb_lt in Hh1.
      destruct r as [|C sr er B]; simpl in *; [lia|].
      destruct Hr as (Hsr & HC & HB).
      pose proof (I1_size_nonneg _ HB). pose proof (I1_size_nonneg _ HC).
      u32.
      destruct (2 * (size C + 1) <? 3 * (size B + 1)) eqn:Hin.
      * apply Z.ltb_lt in Hin.
        rewrite rotation_left by (trivial; u32_side).
        eexists; split; [reflexivity|]. simpl.
        split; [|split; [|split]]; [repeat split; trivial; lia | lia | | ].
        -- list_assoc.
        -- intros Hl3 (Hbr & HC3 & HB3) Hnear.
           rewrite balanced_at_iff in Hbr. simpl in *.
           rewrite !balanced_at_iff. simpl. repeat split; trivial; lia.
      * apply Z.ltb_ge in Hin.
        destruct C as [|C2 sc ec C1]; simpl in *; [lia|].
        destruct HC as (Hsc & HC2 & HC1).
        pose proof (I1_size_nonneg _ HC1). pose proof (I1_size_nonneg _ HC2).
        rewrite double_rotation_left by (trivial; u32_side).
        eexists; split; [reflexivity|]. simpl.
        split; [|split; [|split]]; [repeat split; trivial; lia | lia | | ].
        -- list_assoc.
        -- intros Hl3 (Hbr & (Hbc & HC23 & HC13) & HB3) Hnear.
           rewrite balanced_at_iff in Hbr, Hbc. simpl in *.
           rewrite !balanced_at_iff. simpl. repeat split; trivial; lia.
    + apply Z.ltb_ge in Hh1.
      eexists; split; [reflexivity|]. simpl.
      split; [|split; [|split]]; [repeat split; trivial; lia | lia | reflexivity | ].
      intros Hl3 Hr3 _. rewrite balanced_at_iff. repeat split; trivial; lia.
Qed.

End NodeFacts.

Section ShapeFacts.

Variables E F : Type.
Implicit Types t : binary_node_struct E.
Implicit Types u : binary_node_struct F.

Lemma shape_size t u : shape t = shape u -> size t = size u.
Proof. destruct t, u; simpl; congruence. Qed.

Lemma shape_I1 t : forall u, shape t = shape u -> I1 t -> I1 u.
Proof.
  induction t as [|l IHl s e r IHr]; intros [|l' s' e' r']; simpl;
    try discriminate; trivial.
  intros H. injection H as Hl Hs Hr. intros (H1 & H2 & H3).
  pose proof (shape_size _ _ Hl). pose proof (shape_size _ _ Hr).
  repeat split; [lia | eauto | eauto].
Qed.

Lemma shape_I3 t : forall u, shape t = shape u -> I3 t -> I3 u.
Proof.
  induction t as [|l IHl s e r IHr]; intros [|l' s' e' r']; simpl;
    try discriminate; trivial.
  intros H. injection H as Hl Hs Hr. intros (H1 & H2 & H3).
  pose proof (shape_size _ _ Hl). pose proof (shape_size _ _ Hr).
  rewrite balanced_at_iff in *.
  repeat split; [lia | lia | eauto | eauto].
Qed.

End ShapeFacts.

(** ** Recorded paths *)

Section PathFacts.

Variable E : Type.
Implicit Types t l r root cur : binary_node_struct E.
Implicit Types nodes : list (binary_node_struct E).
Implicit Types dirs : list bool.

Lemma path_length root nodes dirs cur :
  path root nodes dirs cur -> length nodes = length dirs.
Proof. induction 1; simpl; congruence. Qed.

Lemma path_I1 root nodes dirs cur :
  I1 root -> path root nodes dirs cur -> I1 cur /\ Forall (@I1 E) nodes.
Proof.
  intros Hroot. induction 1 as [|n nodes dir dirs Hp [IHn IHf] Hn].
  - split; [assumption | constructor].
  - split; [now apply I1_child | now constructor].
Qed.

Lemma path_I3 root nodes dirs cur :
  I3 root -> path root nodes dirs cur -> I3 cur /\ Forall (@I3 E) nodes.
Proof.
  intros Hroot. induction 1 as [|n nodes dir dirs Hp [IHn IHf] Hn].
  - split; [assumption | constructor].
  - split; [now apply I3_child | now constructor].
Qed.

Lemma path_frames root nodes dirs cur :
  I1 root -> path root nodes dirs cur ->
  frames_ok nodes dirs (size cur) (size root).
Proof.
  intros Hroot. induction 1 as [|n nodes dir dirs Hp IH Hn]; simpl.
  - reflexivity.
  - repeat split; trivial. now apply (path_I1 _ _ _ _ Hroot Hp).
Qed.

Lemma path_inorder root nodes dirs cur :
  path root nodes dirs cur ->
  inorder root = ctx_before nodes dirs ++ inorder cur ++ ctx_after nodes dirs.
Proof.
  induction 1 as [|n nodes dir dirs Hp IH Hn]; simpl.
  - now rewrite app_nil_r.
  - rewrite IH. destruct n as [|c0 s e c1]; [discriminate|].
    destruct dir; list_assoc.
Qed.

Lemma path_hole root nodes dirs cur :
  path root nodes dirs cur ->
  match nodes, dirs with
  | n :: _, d :: _ => child n d
  | _, _ => root
  end = cur.
Proof. destruct 1; reflexivity. Qed.

Lemma path_plug root nodes dirs cur :
  path root nodes dirs cur -> plug nodes dirs cur = root.
Proof.
  induction 1 as [|n nodes dir dirs Hp IH Hn]; simpl; trivial.
  destruct n as [|c0 s e c1]; [discriminate|]. now destruct dir.
Qed.

Lemma shape_plug nodes dirs t t' :
  shape t = shape t' -> shape (plug nodes dirs t) = shape (plug nodes dirs t').
Proof.
  revert dirs t t'. induction nodes as [|n nodes IH]; intros [|d dirs] t t' H;
    simpl; trivial.
  apply IH. destruct n as [|c0 s e c1]; simpl; trivial.
  destruct d; simpl; now rewrite H.
Qed.

Lemma inorder_plug nodes dirs t :
  length nodes = length dirs -> Forall (fun n => is_NIL n = false) nodes ->
  inorder (plug nodes dirs t)
  = ctx_before nodes dirs ++ inorder t ++ ctx_after nodes dirs.
Proof.
  revert dirs t. induction nodes as [|n nodes IH]; intros [|d dirs] t Hlen Hn;
    simpl in *; try discriminate.
  - now rewrite app_nil_r.
  - inversion Hn as [|? ? Hn1 Hn2]; subst.
    rewrite IH by (trivial; lia).
    destruct n as [|c0 s e c1]; [discriminate|]. destruct d; list_assoc.
Qed.

Lemma frames_ok_length nodes dirs c R :
  frames_ok nodes dirs c R -> length nodes = length dirs.
Proof.
  revert dirs c. induction nodes as [|n nodes IH]; intros [|d dirs] c; simpl;
    try tauto.
  intros (_ & _ & _ & H). f_equal. eauto.
Qed.

Lemma frames_ok_real nodes dirs c R :
  frames_ok nodes dirs c R -> Forall (fun n => is_NIL n = false) nodes.
Proof.
  revert dirs c. induction nodes as [|n nodes IH]; intros [|d dirs] c; simpl;
    try tauto; [constructor|].
  intros (Hn & _ & _ & H). constructor; eauto.
Qed.

Lemma frames_ok_le nodes dirs c R : frames_ok nodes dirs c R -> 0 <= c -> c <= R.
Proof.
  revert dirs c. induction nodes as [|n nodes IH]; intros [|d dirs] c; simpl;
    try tauto; [lia|].
  intros (Hn & H1 & Hc & H) Hc0.
  destruct n as [|c0 s e c1]; [discriminate|]. simpl in *.
  destruct H1 as (Hs & H0 & H1).
  pose proof (I1_size_nonneg _ _ H0). pose proof (I1_size_nonneg _ _ H1).
  assert (s <= R) by (apply (IH dirs); trivial; lia).
  destruct d; lia.
Qed.

(** *** Unwinding the path *)

Lemma rebuild_ok nodes : forall dirs c R t,
  frames_ok nodes dirs c R -> I1 t ->
  R + (size t - c) <= max_elements ->
  exists T,
    rebuild nodes dirs t = Some T /\
    I1 T /\ size T = R + (size t - c) /\
    inorder T = ctx_before nodes dirs ++ inorder t ++ ctx_after nodes dirs /\
    (Forall (@I3 E) nodes -> I3 t -> size t = c + 1 \/ size t = c - 1 -> I3 T).
Proof.
  induction nodes as [|n nodes IH]; intros [|d dirs] c R t Hf Ht Hmax;
    simpl in Hf; try tauto.
  - subst c. exists t. simpl. rewrite app_nil_r.
    repeat split; trivial; lia.
  - destruct Hf as (Hn & Hn1 & Hc & Hf).
    destruct n as [|c0 s e c1]; [discriminate|]. simpl in Hn1, Hc, Hf.
    destruct Hn1 as (Hs & H0 & H1).
    pose proof (I1_size_nonneg _ _ H0). pose proof (I1_size_nonneg _ _ H1).
    pose proof (I1_size_nonneg _ _ Ht).
    assert (Hle : s <= R) by (apply (frames_ok_le _ _ _ _ Hf); lia).
    destruct d; simpl.
    + u32.
      destruct (node_rebalance_ok _ c0 (1 + size c0 + size t) e t)
        as (T1 & HT1 & HI1 & Hsz & Hin & HI3); trivial; [lia|].
      rewrite HT1.
      destruct (IH dirs s R T1) as (T & HT & HTI1 & HTs & HTin & HTI3);
        trivial; [lia|].
      exists T. split; [assumption|]. split; [assumption|].
      split; [lia|]. split.
      * rewrite HTin, Hin. list_assoc.
      * intros Hall Ht3 Hd. inversion Hall as [|? ? Hn3 Hns3]; subst.
        simpl in Hn3. destruct Hn3 as (Hb & H03 & H13).
        rewrite balanced_at_iff in Hb.
        apply HTI3; trivial; [|lia].
        apply HI3; trivial. unfold near_balanced. lia.
    + u32.
      destruct (node_rebalance_ok _ t (1 + size t + size c1) e c1)
        as (T1 & HT1 & HI1 & Hsz & Hin & HI3); trivial; [lia|].
      rewrite HT1.
      destruct (IH dirs s R T1) as (T & HT & HTI1 & HTs & HTin & HTI3);
        trivial; [lia|].
      exists T. split; [assumption|]. split; [assumption|].
      split; [lia|]. split.
      * rewrite HTin, Hin. list_assoc.
      * intros Hall Ht3 Hd. inversion Hall as [|? ? Hn3 Hns3]; subst.
        simpl in Hn3. destruct Hn3 as (Hb & H03 & H13).
        rewrite balanced_at_iff in Hb.
        apply HTI3; trivial; [|lia].
        apply HI3; trivial. unfold near_balanced. lia.
Qed.

(** Writing [t] through the owner of the path and running
    [search_path_rebalance] leaves the result of [rebuild] in the root field
    and empties both stacks. *)
Lemma store_and_unwind (s : sorted_set_s E) nodes : forall dirs t fuel,
  length nodes = length dirs -> Forall (fun n => is_NIL n = false) nodes ->
  (length nodes <= fuel)%nat ->
  exists owner,
    get_owner s nodes dirs = Some owner /\
    search_path_rebalance_while fuel
      (fst (store_owner s nodes owner t)) (snd (store_owner s nodes owner t))
      dirs
    = match rebuild nodes dirs t with
      | Some T => Some (set_root_p s T, [], [])
      | None => None
      end.
Proof.
  induction nodes as [|n nodes IH]; intros [|d dirs] t fuel Hlen Hreal Hfuel;
    simpl in Hlen; try discriminate.
  - exists owner_root_p. split; [reflexivity|]. simpl.
    destruct fuel; reflexivity.
  - inversion Hreal as [|? ? Hn Hns]; subst.
    exists (owner_child d). split.
    + unfold get_owner, stack_num_elmnts. simpl length.
      rewrite Hlen, Z.eqb_refl. simpl. now rewrite Hn.
    + destruct fuel as [|fuel]; [simpl in Hfuel; lia|].
      destruct n as [|c0 sz e c1]; [discriminate|].
      destruct (IH dirs NIL fuel) as (owner & Hown & _);
        [lia | assumption | simpl in Hfuel; lia |].
      destruct d;
        cbn [store_owner fst snd search_path_rebalance_while stack_is_empty
             STACK_POP rebuild set_child update_size];
        rewrite Hown;
        (destruct (node_rebalance _) as [sub|]; [|reflexivity]);
        (destruct (IH dirs sub fuel) as (owner' & Hown' & Hrun);
          [lia | assumption | simpl in Hfuel; lia |]);
        rewrite Hown in Hown'; injection Hown' as <-;
        destruct (store_owner s nodes owner sub) as [s2 nodes2] eqn:Hst;
        exact Hrun.
Qed.

Lemma store_and_rebalance (s : sorted_set_s E) nodes dirs t T :
  length nodes = length dirs -> Forall (fun n => is_NIL n = false) nodes ->
  rebuild nodes dirs t = Some T ->
  exists owner s1 nodes1,
    get_owner s nodes dirs = Some owner /\
    load_owner s nodes owner
    = match nodes, dirs with
      | n :: _, d :: _ => child n d
      | _, _ => root_p s
      end /\
    store_owner s nodes owner t = (s1, nodes1) /\
    search_path_rebalance s1 nodes1 dirs = Some (set_root_p s T, [], []).
Proof.
  intros Hlen Hreal HT.
  destruct (store_and_unwind s nodes dirs t (length nodes) Hlen Hreal)
    as (owner & Hown & Hrun); [lia|].
  rewrite HT in Hrun.
  exists owner, (fst (store_owner s nodes owner t)),
    (snd (store_owner s nodes owner t)).
  split; [assumption|]. split; [|split; [now destruct (store_owner _ _ _ _)|]].
  - unfold get_owner in Hown. destruct nodes as [|n nodes], dirs as [|d dirs];
      simpl in *; try discriminate.
    + now injection Hown as <-.
    + destruct (stack_num_elmnts _ =? stack_num_elmnts _); [|discriminate].
      destruct (is_NIL n); [discriminate|]. simpl in Hown.
      now injection Hown as <-.
  - unfold search_path_rebalance.
    assert (Hl1 : length (snd (store_owner s nodes owner t)) = length nodes).
    { destruct owner, nodes; reflexivity. }
    unfold stack_num_elmnts. rewrite Hl1, Hlen, Z.eqb_refl.
    rewrite <- Hlen. exact Hrun.
Qed.

End PathFacts.

(** ** Sorted sequences *)

Section SortedFacts.

Variable A : Type.
Variable R : A -> A -> Prop.

Lemma sorted_app (l1 l2 : list A) :
  StronglySorted R (l1 ++ l2) <->
  StronglySorted R l1 /\ StronglySorted R l2 /\
  Forall (fun a => Forall (R a) l2) l1.
Proof.
  induction l1 as [|a l1 IH]; simpl.
  - split.
    + intros H. repeat split; trivial; constructor.
    + tauto.
  - split.
    + intros H. inversion H as [|? ? Hs Hf]; subst.
      apply IH in Hs. destruct Hs as (H1 & H2 & H3).
      apply Forall_app in Hf. destruct Hf as [Hf1 Hf2].
      repeat split; trivial; constructor; trivial.
    + intros (H1 & H2 & H3).
      inversion H1 as [|? ? Hs Hf]; subst.
      inversion H3 as [|? ? Ha Hrest]; subst.
      constructor.
      * apply IH. repeat split; trivial.
      * apply Forall_app. split; trivial.
Qed.

Lemma sorted_cons (a : A) (l : list A) :
  StronglySorted R (a :: l) <-> StronglySorted R l /\ Forall (R a) l.
Proof.
  split.
  - intros H. inversion H; subst. tauto.
  - intros [H1 H2]. now constructor.
Qed.

End SortedFacts.

(** ** The keyed search *)

Section SearchFacts.

Variable E : Type.
Variable s : sorted_set_s E.
Implicit Types t l r root cur : binary_node_struct E.
Implicit Types nodes : list (binary_node_struct E).
Implicit Types dirs : list bool.

(** Recording the path does not change what the search returns. *)
Lemma search_while_csp e cur : forall nodes dirs copy rank,
  let '(f1, _, _, c1, k1) :=
    sorted_set_search_while s e false cur [] [] copy rank in
  let '(f2, _, _, c2, k2) :=
    sorted_set_search_while s e true cur nodes dirs copy rank in
  f1 = f2 /\ c1 = c2 /\ k1 = k2.
Proof.
  induction cur as [|c0 IH0 sz x c1 IH1]; intros nodes dirs copy rank; simpl.
  - tauto.
  - destruct (is_match s e x); [tauto|].
    destruct (is_less s e x); [apply IH0 | apply IH1].
Qed.

Lemma search_while_path root e cur : forall nodes dirs copy rank,
  path root nodes dirs cur ->
  match sorted_set_search_while s e true cur nodes dirs copy rank with
  | (true, nodes', dirs', copy', _) =>
      exists c0 sz x c1 ns,
        nodes' = Node c0 sz x c1 :: ns /\
        path root ns dirs' (Node c0 sz x c1) /\
        is_match s e x = true /\ copy' = option_map (fun _ => x) copy
  | (false, nodes', dirs', copy', _) =>
      path root nodes' dirs' NIL /\ copy' = copy
  end.
Proof.
  induction cur as [|c0 IH0 sz x c1 IH1]; intros nodes dirs copy rank Hp;
    simpl.
  - tauto.
  - destruct (is_match s e x) eqn:Hm.
    + exists c0, sz, x, c1, nodes. tauto.
    + destruct (is_less s e x).
      * apply IH0. exact (@path_step _ root (Node c0 sz x c1) nodes false dirs Hp eq_refl).
      * apply IH1. exact (@path_step _ root (Node c0 sz x c1) nodes true dirs Hp eq_refl).
Qed.

Lemma search_while_rank_none e cur : forall csp nodes dirs copy,
  snd (sorted_set_search_while s e csp cur nodes dirs copy None) = None.
Proof.
  induction cur as [|c0 IH0 sz x c1 IH1]; intros csp nodes dirs copy; simpl.
  - reflexivity.
  - destruct (is_match s e x); [reflexivity|].
    destruct (is_less s e x); [apply IH0 | apply IH1].
Qed.

Lemma search_while_rank root e cur : forall nodes dirs copy,
  path root nodes dirs cur -> I1 root -> size root + 1 < u32_modulus ->
  match
    sorted_set_search_while s e true cur nodes dirs copy
      (Some (1 + Z.of_nat (length (ctx_before nodes dirs))))
  with
  | (true, n :: ns, dirs', _, rank') =>
      rank' = Some (1 + Z.of_nat (length (ctx_before ns dirs'
                                           ++ inorder (child n false))))
  | (true, [], _, _, _) => False
  | (false, nodes', dirs', _, rank') =>
      rank' = Some (1 + Z.of_nat (length (ctx_before nodes' dirs')))
  end.
Proof.
  induction cur as [|c0 IH0 sz x c1 IH1]; intros nodes dirs copy Hp Hroot Hmax;
    simpl.
  - reflexivity.
  - pose proof (path_inorder _ _ _ _ _ Hp) as Hin.
    apply (f_equal (@length E)) in Hin.
    rewrite (I1_size_length _ _ Hroot) in Hmax.
    destruct (path_I1 _ _ _ _ _ Hroot Hp) as [(Hs & H0 & H1) _].
    pose proof (I1_size_length _ _ H0) as Hl0.
    simpl in Hin. repeat (rewrite length_app in Hin; simpl in Hin).
    destruct (is_match s e x) eqn:Hm.
    + simpl. rewrite length_app. u32. f_equal. lia.
    + destruct (is_less s e x); simpl.
      * apply (IH0 (Node c0 sz x c1 :: nodes) (false :: dirs) copy); trivial.
        -- exact (@path_step _ root (Node c0 sz x c1) nodes false dirs Hp eq_refl).
        -- rewrite (I1_size_length _ _ Hroot). lia.
      * u32.
        replace (1 + Z.of_nat (length (ctx_before nodes dirs)) + (1 + size c0))
          with (1 + Z.of_nat
                      (length (ctx_before (Node c0 sz x c1 :: nodes)
                                          (true :: dirs)))).
        -- apply (IH1 (Node c0 sz x c1 :: nodes) (true :: dirs) copy); trivial.
           ++ exact (@path_step _ root (Node c0 sz x c1) nodes true dirs Hp eq_refl).
           ++ rewrite (I1_size_length _ _ Hroot). lia.
        -- simpl. rewrite !length_app. simpl. lia.
Qed.

Lemma search_while_absent e cur : forall csp nodes dirs copy rank,
  (forall y, In y (inorder cur) -> is_match s e y = false) ->
  exists nodes' dirs' rank',
    sorted_set_search_while s e csp cur nodes dirs copy rank
    = (false, nodes', dirs', copy, rank').
Proof.
  induction cur as [|c0 IH0 sz x c1 IH1]; intros csp nodes dirs copy rank Habs;
    simpl.
  - now exists nodes, dirs, rank.
  - rewrite (Habs x) by (simpl; apply in_or_app; right; now left).
    destruct (is_less s e x).
    + apply IH0. intros y Hy. apply Habs. simpl. apply in_or_app. now left.
    + apply IH1. intros y Hy. apply Habs. simpl. apply in_or_app.
      right. now right.
Qed.

Section Ordering.

Hypothesis laws : order_laws (is_match s) (is_less s).

Let lt (a b : E) : Prop := is_less s a b = true.

Lemma search_while_bounds e cur : forall nodes dirs copy rank,
  StronglySorted lt
    (ctx_before nodes dirs ++ inorder cur ++ ctx_after nodes dirs) ->
  Forall (fun y => lt y e) (ctx_before nodes dirs) ->
  Forall (fun y => lt e y) (ctx_after nodes dirs) ->
  match sorted_set_search_while s e true cur nodes dirs copy rank with
  | (true, n :: ns, dirs', _, _) =>
      Forall (fun y => lt y e) (ctx_before ns dirs' ++ inorder (child n false))
      /\ Forall (fun y => lt e y) (inorder (child n true) ++ ctx_after ns dirs')
  | (true, [], _, _, _) => False
  | (false, nodes', dirs', _, _) =>
      Forall (fun y => lt y e) (ctx_before nodes' dirs') /\
      Forall (fun y => lt e y) (ctx_after nodes' dirs')
  end.
Proof.
  induction cur as [|c0 IH0 sz x c1 IH1];
    intros nodes dirs copy rank Hall Hb Ha; simpl.
  - tauto.
  - simpl in Hall. pose proof Hall as Hs.
    apply sorted_app in Hs. destruct Hs as (_ & Hs & _).
    rewrite <- app_assoc in Hs. simpl in Hs.
    apply sorted_app in Hs. destruct Hs as (_ & Hs & H0x).
    apply sorted_cons in Hs. destruct Hs as (_ & Hx1).
    apply Forall_app in Hx1. destruct Hx1 as [Hx1 _].
    assert (H0 : Forall (fun y => lt y x) (inorder c0)).
    { eapply Forall_impl; [|exact H0x]. intros y Hy. now inversion Hy. }
    destruct (is_match s e x) eqn:Hm.
    + split; apply Forall_app; split; trivial.
      * eapply Forall_impl; [|exact H0]. intros y Hy.
        exact (match_less_r laws _ _ _ Hm Hy).
      * eapply Forall_impl; [|exact Hx1]. intros y Hy.
        exact (match_less_l laws _ _ _ Hm Hy).
    + destruct (is_less s e x) eqn:Hlt.
      * apply (IH0 (Node c0 sz x c1 :: nodes) (false :: dirs)); simpl; trivial.
        -- rewrite <- app_assoc in Hall. exact Hall.
        -- constructor; [exact Hlt|]. apply Forall_app. split; trivial.
           eapply Forall_impl; [|exact Hx1]. intros y Hy.
           exact (less_trans laws _ _ _ Hlt Hy).
      * pose proof (less_total laws _ _ Hm Hlt) as Hgt.
        apply (IH1 (Node c0 sz x c1 :: nodes) (true :: dirs)); simpl; trivial.
        -- rewrite <- app_assoc in Hall. simpl in Hall.
           repeat (rewrite <- app_assoc; simpl). exact Hall.
        -- apply Forall_app. split; trivial. apply Forall_app. split.
           ++ eapply Forall_impl; [|exact H0]. intros y Hy.
              exact (less_trans laws _ _ _ Hy Hgt).
           ++ repeat constructor. exact Hgt.
Qed.

End Ordering.

End SearchFacts.

(** ** The search by rank *)

Section RankFacts.

Variable E : Type.
Implicit Types t l r root cur : binary_node_struct E.
Implicit Types nodes : list (binary_node_struct E).
Implicit Types dirs : list bool.

Lemma search_by_rank_while_csp cur : forall rank nodes dirs (copy : option E),
  option_map snd (sorted_set_search_by_rank_while false cur rank [] [] copy)
  = option_map snd
      (sorted_set_search_by_rank_while true cur rank nodes dirs copy).
Proof.
  induction cur as [|c0 IH0 sz x c1 IH1]; intros rank nodes dirs copy; simpl.
  - destruct (1 <=? rank), (rank <=? 0); reflexivity.
  - destruct (1 <=? rank); [|reflexivity].
    destruct (rank <=? sz); [|reflexivity].
    destruct (rank =? to_u32 (1 + size c0)); [reflexivity|].
    destruct (rank <? to_u32 (1 + size c0)); [apply IH0 | apply IH1].
Qed.

Lemma search_by_rank_while_out_of_range csp cur rank nodes dirs
  (copy : option E) :
  rank < 1 \/ size cur < rank ->
  sorted_set_search_by_rank_while csp cur rank nodes dirs copy = None.
Proof.
  intros H. destruct cur as [|c0 sz x c1]; simpl in *.
  - destruct (1 <=? rank), (rank <=? 0); reflexivity.
  - destruct (1 <=? rank) eqn:H1; [|reflexivity].
    destruct (rank <=? sz) eqn:H2; [|reflexivity].
    apply Z.leb_le in H1, H2. lia.
Qed.

Lemma search_by_rank_while_ok root cur : forall rank nodes dirs (copy : option E),
  path root nodes dirs cur -> I1 root -> size root < u32_modulus ->
  1 <= rank <= size cur ->
  exists c0 sz x c1 ns ds,
    sorted_set_search_by_rank_while true cur rank nodes dirs copy
    = Some (Node c0 sz x c1 :: ns, ds, option_map (fun _ => x) copy) /\
    path root ns ds (Node c0 sz x c1) /\
    Z.of_nat (length (ctx_before ns ds ++ inorder c0))
    = Z.of_nat (length (ctx_before nodes dirs)) + rank - 1.
Proof.
  induction cur as [|c0 IH0 sz x c1 IH1];
    intros rank nodes dirs copy Hp Hroot Hmax Hr; simpl in Hr; [lia|].
  pose proof (path_frames _ _ _ _ _ Hroot Hp) as Hf.
  destruct (path_I1 _ _ _ _ _ Hroot Hp) as [(Hs & H0 & H1) _].
  pose proof (I1_size_nonneg _ _ H0). pose proof (I1_size_nonneg _ _ H1).
  assert (sz <= size root) by (apply (frames_ok_le _ _ _ _ _ Hf); simpl; lia).
  simpl in *.
  replace (1 <=? rank) with true by (symmetry; apply Z.leb_le; lia).
  replace (rank <=? sz) with true by (symmetry; apply Z.leb_le; lia).
  u32.
  destruct (rank =? 1 + size c0) eqn:Heq.
  - apply Z.eqb_eq in Heq.
    exists c0, sz, x, c1, nodes, dirs. repeat split; trivial.
    rewrite length_app, (I1_size_length _ _ H0) in *. lia.
  - apply Z.eqb_neq in Heq.
    destruct (rank <? 1 + size c0) eqn:Hlt.
    + apply Z.ltb_lt in Hlt.
      destruct (IH0 rank (Node c0 sz x c1 :: nodes) (false :: dirs) copy)
        as (a0 & az & ax & a1 & ns & ds & Hrun & Hp' & Hlen); trivial; [|lia|].
      * exact (@path_step _ root (Node c0 sz x c1) nodes false dirs Hp eq_refl).
      * exists a0, az, ax, a1, ns, ds. repeat split; trivial.
    + apply Z.ltb_ge in Hlt. u32.
      destruct (IH1 (rank - (1 + size c0)) (Node c0 sz x c1 :: nodes)
                  (true :: dirs) copy)
        as (a0 & az & ax & a1 & ns & ds & Hrun & Hp' & Hlen); trivial; [|lia|].
      * exact (@path_step _ root (Node c0 sz x c1) nodes true dirs Hp eq_refl).
      * exists a0, az, ax, a1, ns, ds. split; [assumption|].
        split; [assumption|].
        rewrite Hlen. simpl. rewrite !length_app. simpl.
        rewrite (I1_size_length _ _ H0). lia.
Qed.

End RankFacts.

(** ** Removal *)

Section RemoveFacts.

Variable E : Type.
Implicit Types t l r root cur : binary_node_struct E.
Implicit Types nodes pn : list (binary_node_struct E).
Implicit Types dirs pd : list bool.

Lemma ctx_before_app pn : forall pd nodes dirs,
  length pn = length pd ->
  ctx_before (pn ++ nodes) (pd ++ dirs)
  = ctx_before nodes dirs ++ ctx_before pn pd.
Proof.
  induction pn as [|n pn IH]; intros [|d pd] nodes dirs Hlen; simpl in *;
    try discriminate.
  - now rewrite app_nil_r.
  - rewrite IH by lia. destruct n as [|c0 sz x c1]; [reflexivity|].
    destruct d; [|reflexivity]. list_assoc.
Qed.

Lemma ctx_after_app pn : forall pd nodes dirs,
  length pn = length pd ->
  ctx_after (pn ++ nodes) (pd ++ dirs) = ctx_after pn pd ++ ctx_after nodes dirs.
Proof.
  induction pn as [|n pn IH]; intros [|d pd] nodes dirs Hlen; simpl in *;
    try discriminate.
  - reflexivity.
  - rewrite IH by lia. destruct n as [|c0 sz x c1]; [reflexivity|].
    destruct d; [reflexivity|]. list_assoc.
Qed.

Lemma frames_ok_app pn : forall pd nodes dirs c R1 R,
  frames_ok pn pd c R1 -> frames_ok nodes dirs R1 R ->
  frames_ok (pn ++ nodes) (pd ++ dirs) c R.
Proof.
  induction pn as [|n pn IH]; intros [|d pd] nodes dirs c R1 R H1 H2;
    simpl in *; try tauto.
  - now subst.
  - destruct H1 as (Hn & Hi & Hc & Hf). repeat split; trivial. eauto.
Qed.

Lemma remove_helper_while_ok t : forall nodes dirs,
  is_NIL t = false -> I1 t ->
  exists pn pd sz m r,
    remove_helper_while t nodes dirs
    = (Node NIL sz m r, pn ++ nodes, pd ++ dirs) /\
    length pn = length pd /\
    ctx_before pn pd = [] /\
    inorder t = m :: inorder r ++ ctx_after pn pd /\
    frames_ok pn pd sz (size t) /\
    I1 (Node NIL sz m r) /\
    (I3 t -> I3 r /\ Forall (@I3 E) pn).
Proof.
  induction t as [|c0 IH0 sz x c1 _]; intros nodes dirs Hn Ht;
    [discriminate|].
  simpl. destruct c0 as [|a0 az ax a1] eqn:Hc0.
  - exists [], [], sz, x, c1. simpl. rewrite app_nil_r.
    do 5 (split; [reflexivity|]). split; [exact Ht|].
    intros (_ & _ & H13). split; [assumption | constructor].
  - rewrite <- Hc0 in *. destruct Ht as (Hs & H0 & H1).
    replace (is_NIL c0) with false by now rewrite Hc0.
    destruct (IH0 (STACK_PUSH nodes (Node c0 sz x c1)) (STACK_PUSH dirs false))
      as (pn & pd & sm & m & r & Hrun & Hlen & Hb & Hin & Hf & Hi & H3);
      [now rewrite Hc0 | assumption |].
    exists (pn ++ [Node c0 sz x c1]), (pd ++ [false]), sm, m, r.
    rewrite Hrun. unfold STACK_PUSH. rewrite <- !app_assoc. simpl.
    split; [reflexivity|]. split; [rewrite !length_app; simpl; lia|].
    split; [rewrite ctx_before_app by assumption; simpl; assumption|].
    split; [rewrite ctx_after_app by assumption; simpl; rewrite Hin;
            rewrite ?app_nil_r; list_assoc|].
    split.
    { apply (frames_ok_app _ _ _ _ _ (size c0)); trivial. simpl.
      repeat split; trivial. }
    split; [assumption|].
    intros (Hb3 & H03 & H13). destruct (H3 H03) as [Hr3 Hpn3].
    split; [assumption|]. apply Forall_app. split; [assumption|].
    repeat constructor; trivial.
Qed.

Lemma store_element_at_app pn n n' nodes e :
  set_element n e = Some n' ->
  store_element_at (pn ++ n :: nodes) (length nodes) e
  = Some (pn ++ n' :: nodes).
Proof.
  intros Hn. induction pn as [|a pn IH]; simpl.
  - now rewrite Nat.eqb_refl, Hn.
  - rewrite IH.
    replace (Nat.eqb (length (pn ++ n :: nodes)) (length nodes)) with false;
      [reflexivity|].
    symmetry. apply Nat.eqb_neq. rewrite length_app. simpl. lia.
Qed.

Lemma splice_and_rebalance (s : sorted_set_s E) nodes dirs c R t :
  frames_ok nodes dirs c R -> I1 t -> size t = c - 1 -> R <= max_elements ->
  exists set1 nodes1 T,
    (do owner <- get_owner s nodes dirs;
     let (set2, nodes2) := store_owner s nodes owner t in
     Some (set2, nodes2, dirs)) = Some (set1, nodes1, dirs) /\
    search_path_rebalance set1 nodes1 dirs = Some (set_root_p s T, [], []) /\
    I1 T /\ size T = R - 1 /\
    inorder T = ctx_before nodes dirs ++ inorder t ++ ctx_after nodes dirs /\
    (Forall (@I3 E) nodes -> I3 t -> I3 T).
Proof.
  intros Hf Ht Hsz Hmax.
  destruct (rebuild_ok _ nodes dirs c R t Hf Ht)
    as (T & HT & HI1 & HTs & HTin & HI3); [lia|].
  destruct (store_and_rebalance _ s nodes dirs t T)
    as (owner & s1 & nodes1 & Hown & _ & Hst & Hrun); trivial.
  { exact (frames_ok_length _ _ _ _ _ Hf). }
  { exact (frames_ok_real _ _ _ _ _ Hf). }
  exists s1, nodes1, T. rewrite Hown, Hst.
  split; [reflexivity|]. split; [assumption|]. split; [assumption|].
  split; [lia|]. split; [assumption|].
  intros Hn3 Ht3. apply HI3; trivial. right. assumption.
Qed.

Lemma remove_and_rebalance (s : sorted_set_s E) c0 sz x c1 nodes dirs R :
  I1 (Node c0 sz x c1) -> frames_ok nodes dirs sz R -> R <= max_elements ->
  exists set1 nodes1 dirs1 T,
    remove_helper s (Node c0 sz x c1) nodes dirs = Some (set1, nodes1, dirs1)
    /\ search_path_rebalance set1 nodes1 dirs1 = Some (set_root_p s T, [], [])
    /\ I1 T /\ size T = R - 1
    /\ inorder T
       = ctx_before nodes dirs ++ inorder c0 ++ inorder c1
         ++ ctx_after nodes dirs
    /\ (Forall (@I3 E) nodes -> I3 (Node c0 sz x c1) -> I3 T).
Proof.
  intros (Hs & H0 & H1) Hf Hmax.
  pose proof (frames_ok_length _ _ _ _ _ Hf) as Hlen.
  pose proof (I1_size_nonneg _ _ H0). pose proof (I1_size_nonneg _ _ H1).
  unfold remove_helper, stack_num_elmnts. rewrite Hlen, Z.eqb_refl.
  cbn [is_NIL negb child].
  destruct c0 as [|a0 az ax a1] eqn:Hc0; cbn [is_NIL]; cbv beta iota.
  - destruct (splice_and_rebalance s nodes dirs sz R c1)
      as (set1 & nodes1 & T & Hrun & Hreb & HI1 & HTs & HTin & HI3);
      trivial; [simpl in Hs; lia|].
    exists set1, nodes1, dirs, T. split; [exact Hrun|].
    repeat (split; [assumption|]). simpl. tauto.
  - rewrite <- Hc0 in *. clear Hc0.
    destruct c1 as [|b0 bz bx b1] eqn:Hc1; cbn [is_NIL]; cbv beta iota.
    + destruct (splice_and_rebalance s nodes dirs sz R c0)
        as (set1 & nodes1 & T & Hrun & Hreb & HI1 & HTs & HTin & HI3);
        trivial; [simpl in Hs; lia|].
      exists set1, nodes1, dirs, T. split; [exact Hrun|].
      repeat (split; [assumption|]). simpl. tauto.
    + rewrite <- Hc1 in *.
      destruct (remove_helper_while_ok c1
                  (STACK_PUSH nodes (Node c0 sz x c1)) (STACK_PUSH dirs true))
        as (pn & pd & sm & m & r & Hwh & Hpl & Hb & Hin & Hpf & Hi & Hp3);
        [now rewrite Hc1 | assumption |].
      rewrite Hwh. cbn [binary_node_get_element child]. unfold STACK_PUSH.
      rewrite <- Hlen.
      rewrite (store_element_at_app pn (Node c0 sz x c1) (Node c0 sz m c1))
        by reflexivity.
      cbv beta iota.
      destruct Hi as (Hsm & _ & Hr).
      destruct (splice_and_rebalance s (pn ++ Node c0 sz m c1 :: nodes)
                  (pd ++ true :: dirs) sm R r)
        as (set1 & nodes1 & T & Hrun & Hreb & HI1 & HTs & HTin & HI3);
        trivial; [|simpl in Hsm; lia|].
      { apply (frames_ok_app _ _ _ _ _ (size c1)); trivial. simpl.
        repeat split; trivial. }
      exists set1, nodes1, (pd ++ true :: dirs), T. split; [exact Hrun|].
      repeat (split; [assumption|]). split.
      * rewrite HTin, ctx_before_app, ctx_after_app by assumption.
        simpl. rewrite Hb, Hin. list_assoc.
      * intros Hn3 (Hb3 & H03 & H13). destruct (Hp3 H13) as [Hr3 Hpn3].
        apply HI3; trivial. apply Forall_app. split; [assumption|].
        constructor; [|assumption]. simpl. repeat split; trivial.
Qed.

End RemoveFacts.

(** ** The operations of the set *)

Section OperationFacts.

Variable E : Type.
Variable s : sorted_set_s E.
Implicit Types t l r root cur T : binary_node_struct E.
Implicit Types nodes : list (binary_node_struct E).
Implicit Types dirs : list bool.

Let lt (a b : E) : Prop := is_less s a b = true.

Lemma set_root_p_same : set_root_p s (root_p s) = s.
Proof. now destruct s. Qed.

(** What the keyed search with a recorded path returns. *)
Lemma search_spec e copy rank_in :
  I1 (root_p s) -> size (root_p s) + 1 < u32_modulus ->
  exists found nodes dirs copy' before after,
    sorted_set_search s e true (Some []) (Some []) copy rank_in
    = Some (found, nodes, dirs, copy',
            option_map (fun _ => 1 + Z.of_nat (length before)) rank_in) /\
    (order_laws (is_match s) (is_less s) -> I2 s (root_p s) ->
     Forall (fun y => lt y e) before /\ Forall (fun y => lt e y) after) /\
    if found then
      exists c0 sz x c1 ns,
        nodes = Node c0 sz x c1 :: ns /\
        path (root_p s) ns dirs (Node c0 sz x c1) /\
        is_match s e x = true /\ copy' = option_map (fun _ => x) copy /\
        before = ctx_before ns dirs ++ inorder c0 /\
        after = inorder c1 ++ ctx_after ns dirs
    else
      path (root_p s) nodes dirs NIL /\ copy' = copy /\
      before = ctx_before nodes dirs /\ after = ctx_after nodes dirs.
Proof.
  intros HI1 Hmax. unfold sorted_set_search. cbn [stack_is_empty andb].
  pose proof (search_while_path _ s (root_p s) e (root_p s) [] [] copy
                (option_map (fun _ => 1) rank_in) (path_root (root_p s)))
    as Hpath.
  pose proof (search_while_rank _ s (root_p s) e (root_p s) [] [] copy
                (path_root (root_p s)) HI1 Hmax) as Hrank.
  pose proof (search_while_rank_none _ s e (root_p s) true [] [] copy)
    as Hnone.
  pose proof (fun laws =>
                search_while_bounds _ s laws e (root_p s) [] [] copy
                  (option_map (fun _ => 1) rank_in)) as Hbounds.
  cbn [ctx_before ctx_after app length] in Hrank, Hbounds.
  change (1 + Z.of_nat 0) with 1 in Hrank.
  destruct rank_in as [v|]; cbn [option_map] in *.
  - destruct (sorted_set_search_while s e true (root_p s) [] [] copy (Some 1))
      as [[[[found nodes] dirs] copy'] rank'].
    destruct found.
    + destruct Hpath as (c0 & sz & x & c1 & ns & -> & Hp & Hm & Hc).
      cbn [child] in *. subst rank'.
      exists true, (Node c0 sz x c1 :: ns), dirs, copy',
        (ctx_before ns dirs ++ inorder c0), (inorder c1 ++ ctx_after ns dirs).
      split; [reflexivity|]. split.
      * intros laws H2. apply (Hbounds laws); try constructor.
        unfold I2 in H2. now rewrite app_nil_r.
      * exists c0, sz, x, c1, ns. tauto.
    + destruct Hpath as (Hp & Hc). subst rank'.
      exists false, nodes, dirs, copy', (ctx_before nodes dirs),
        (ctx_after nodes dirs).
      split; [reflexivity|]. split.
      * intros laws H2. apply (Hbounds laws); try constructor.
        unfold I2 in H2. now rewrite app_nil_r.
      * tauto.
  - destruct (sorted_set_search_while s e true (root_p s) [] [] copy None)
      as [[[[found nodes] dirs] copy'] rank'].
    cbn [snd] in Hnone. subst rank'.
    destruct found.
    + destruct Hpath as (c0 & sz & x & c1 & ns & -> & Hp & Hm & Hc).
      cbn [child] in *.
      exists true, (Node c0 sz x c1 :: ns), dirs, copy',
        (ctx_before ns dirs ++ inorder c0), (inorder c1 ++ ctx_after ns dirs).
      split; [reflexivity|]. split.
      * intros laws H2. apply (Hbounds laws); try constructor.
        unfold I2 in H2. now rewrite app_nil_r.
      * exists c0, sz, x, c1, ns. tauto.
    + destruct Hpath as (Hp & Hc).
      exists false, nodes, dirs, copy', (ctx_before nodes dirs),
        (ctx_after nodes dirs).
      split; [reflexivity|]. split.
      * intros laws H2. apply (Hbounds laws); try constructor.
        unfold I2 in H2. now rewrite app_nil_r.
      * tauto.
Qed.

Lemma contains_spec e copy rank_in :
  I1 (root_p s) -> size (root_p s) + 1 < u32_modulus ->
  exists found copy' before after,
    sorted_set_contains s e copy rank_in
    = Some (found, copy',
            option_map (fun _ => 1 + Z.of_nat (length before)) rank_in) /\
    (order_laws (is_match s) (is_less s) -> I2 s (root_p s) ->
     Forall (fun y => lt y e) before /\ Forall (fun y => lt e y) after) /\
    if found then
      exists x, is_match s e x = true /\
                copy' = option_map (fun _ => x) copy /\
                inorder (root_p s) = before ++ x :: after
    else copy' = copy /\ inorder (root_p s) = before ++ after.
Proof.
  intros HI1 Hmax.
  destruct (search_spec e copy rank_in HI1 Hmax)
    as (found & nodes & dirs & copy' & before & after & Hrun & Hord & Hres).
  unfold sorted_set_contains, sorted_set_search in *.
  cbn [stack_is_empty andb] in Hrun.
  pose proof (search_while_csp _ s e (root_p s) [] [] copy
                (option_map (fun _ => 1) rank_in)) as Hcsp.
  injection Hrun as Hrun. rewrite Hrun in Hcsp.
  destruct (sorted_set_search_while s e false (root_p s) [] [] copy
              (option_map (fun _ => 1) rank_in))
    as [[[[f1 n1] d1] c1] k1].
  destruct Hcsp as (-> & -> & ->).
  exists found, copy', before, after.
  split; [reflexivity|]. split; [assumption|].
  destruct found.
  - destruct Hres as (c0 & sz & x & a1 & ns & _ & Hp & Hm & Hc & -> & ->).
    exists x. repeat split; trivial.
    rewrite (path_inorder _ _ _ _ _ Hp). list_assoc.
  - destruct Hres as (Hp & Hc & -> & ->). split; [assumption|].
    now rewrite (path_inorder _ _ _ _ _ Hp).
Qed.

(** Neither the return value nor the set depends on any invariant when no
    stored element matches. *)
Lemma remove_absent e rank_in :
  (forall y, In y (inorder (root_p s)) -> is_match s e y = false) ->
  exists rank', sorted_set_remove s e rank_in = Some (false, s, rank').
Proof.
  intros Habs.
  unfold sorted_set_remove, sorted_set_insert_or_remove, sorted_set_search.
  cbv zeta. cbn [stack_create stack_is_empty andb].
  match goal with
  | |- context [sorted_set_search_while _ _ ?c _ ?n ?d ?cp ?rk] =>
      destruct (search_while_absent _ s e (root_p s) c n d cp rk Habs)
        as (nodes' & dirs' & rank' & Hrun)
  end.
  rewrite Hrun. now exists rank'.
Qed.

(** An element that matches no stored element lies strictly between the
    two parts of the in-order sequence that the search separates. *)
Lemma bounds_exclude_match e before after :
  order_laws (is_match s) (is_less s) ->
  Forall (fun y => lt y e) before -> Forall (fun y => lt e y) after ->
  forall y, In y (before ++ after) -> is_match s e y = false.
Proof.
  intros laws Hb Ha y Hy. rewrite Forall_forall in Hb, Ha.
  apply in_app_or in Hy. destruct Hy as [Hy|Hy].
  - exact (proj2 (less_not_match laws _ _ (Hb y Hy))).
  - exact (proj1 (less_not_match laws _ _ (Ha y Hy))).
Qed.

(** Insertion: the return value, the new root and the rank output. *)
Lemma insert_spec e rank_in :
  I1 (root_p s) -> size (root_p s) < max_elements ->
  exists found T before after,
    sorted_set_insert s e rank_in
    = Some (found, set_root_p s T,
            option_map (fun _ => 1 + Z.of_nat (length before)) rank_in) /\
    (order_laws (is_match s) (is_less s) -> I2 s (root_p s) ->
     Forall (fun y => lt y e) before /\ Forall (fun y => lt e y) after) /\
    inorder T = before ++ e :: after /\ I1 T /\
    (I3 (root_p s) -> I3 T) /\
    if found then
      exists x, is_match s e x = true /\
                inorder (root_p s) = before ++ x :: after /\
                shape T = shape (root_p s) /\
                exists c0 sz c1 ns ds,
                  path (root_p s) ns ds (Node c0 sz x c1) /\
                  T = plug ns ds (Node c0 sz e c1)
    else
      inorder (root_p s) = before ++ after /\
      size T = size (root_p s) + 1 /\
      exists nodes dirs,
        path (root_p s) nodes dirs NIL /\
        rebuild nodes dirs (leaf_create e) = Some T.
Proof.
  intros HI1 Hmax.
  destruct (search_spec e None rank_in HI1)
    as (found & nodes & dirs & copy' & before & after & Hrun & Hord & Hres);
    [u32_side|].
  unfold sorted_set_insert, sorted_set_insert_or_remove.
  unfold stack_create. cbv zeta. use_search Hrun.
  destruct found.
  - destruct Hres as (c0 & sz & x & c1 & ns & -> & Hp & Hm & Hc & -> & ->).
    pose proof (path_length _ _ _ _ _ Hp) as Hlen.
    unfold stack_num_elmnts. cbn [length].
    replace (Z.of_nat (S (length ns)) =? 1 + Z.of_nat (length dirs)) with true
      by (symmetry; apply Z.eqb_eq; lia).
    cbn [STACK_POP binary_node_get_element set_element]. rewrite Hm.
    assert (Hplug : relink s ns dirs (Node c0 sz e c1)
                    = set_root_p s (plug ns dirs (Node c0 sz e c1))).
    { clear. revert dirs. generalize (Node c0 sz e c1).
      induction ns as [|n ns IH]; intros t [|d dirs]; simpl; trivial. }
    rewrite Hplug.
    assert (Hshape : shape (plug ns dirs (Node c0 sz e c1))
                     = shape (root_p s)).
    { transitivity (shape (plug ns dirs (Node c0 sz x c1)));
        [now apply shape_plug | now rewrite (path_plug _ _ _ _ _ Hp)]. }
    exists true, (plug ns dirs (Node c0 sz e c1)),
      (ctx_before ns dirs ++ inorder c0), (inorder c1 ++ ctx_after ns dirs).
    split; [reflexivity|]. split; [assumption|]. split.
    { rewrite inorder_plug; trivial; [list_assoc|].
      pose proof (path_frames _ _ _ _ _ HI1 Hp) as Hf.
      exact (frames_ok_real _ _ _ _ _ Hf). }
    split; [exact (shape_I1 _ _ _ _ (eq_sym Hshape) HI1)|].
    split; [exact (shape_I3 _ _ _ _ (eq_sym Hshape))|].
    exists x. split; [assumption|].
    split; [rewrite (path_inorder _ _ _ _ _ Hp); list_assoc|].
    split; [assumption|].
    exists c0, sz, c1, ns, dirs. split; [assumption | reflexivity].
  - destruct Hres as (Hp & Hc & -> & ->).
    pose proof (path_frames _ _ _ _ _ HI1 Hp) as Hf. simpl size in Hf.
    destruct (rebuild_ok _ nodes dirs 0 (size (root_p s)) (leaf_create e) Hf)
      as (T & HT & HTI1 & HTs & HTin & HTI3).
    { simpl. repeat split; lia. }
    { simpl. lia. }
    destruct (store_and_rebalance _ s nodes dirs (leaf_create e) T)
      as (owner & s1 & nodes1 & Hown & Hload & Hst & Hreb); trivial.
    { exact (frames_ok_length _ _ _ _ _ Hf). }
    { exact (frames_ok_real _ _ _ _ _ Hf). }
    rewrite Hown, Hload, Hst, Hreb.
    assert (Hnil : is_NIL match nodes, dirs with
                          | n :: _, d :: _ => child n d
                          | _, _ => root_p s
                          end = true).
    { now rewrite (path_hole _ _ _ _ _ Hp). }
    rewrite Hnil.
    exists false, T, (ctx_before nodes dirs), (ctx_after nodes dirs).
    split; [reflexivity|]. split; [assumption|].
    split; [exact HTin|]. split; [assumption|]. split.
    { intros H3. apply HTI3.
      - exact (proj2 (path_I3 _ _ _ _ _ H3 Hp)).
      - simpl. split; [|tauto]. apply balanced_at_iff. simpl. lia.
      - left. reflexivity. }
    split; [now rewrite (path_inorder _ _ _ _ _ Hp)|].
    split; [simpl in HTs; lia|].
    exists nodes, dirs. split; assumption.
Qed.

(** Removal by key. *)
Lemma remove_spec e rank_in :
  I1 (root_p s) -> size (root_p s) <= max_elements ->
  exists found T before after,
    sorted_set_remove s e rank_in
    = Some (found, set_root_p s T,
            option_map (fun _ => 1 + Z.of_nat (length before)) rank_in) /\
    (order_laws (is_match s) (is_less s) -> I2 s (root_p s) ->
     Forall (fun y => lt y e) before /\ Forall (fun y => lt e y) after) /\
    inorder T = before ++ after /\ I1 T /\
    (I3 (root_p s) -> I3 T) /\
    if found then
      exists x, is_match s e x = true /\
                inorder (root_p s) = before ++ x :: after /\
                size T = size (root_p s) - 1
    else T = root_p s.
Proof.
  intros HI1 Hmax.
  destruct (search_spec e None rank_in HI1)
    as (found & nodes & dirs & copy' & before & after & Hrun & Hord & Hres);
    [u32_side|].
  unfold sorted_set_remove, sorted_set_insert_or_remove.
  unfold stack_create. cbv zeta. use_search Hrun.
  destruct found.
  - destruct Hres as (c0 & sz & x & c1 & ns & -> & Hp & Hm & Hc & -> & ->).
    pose proof (path_length _ _ _ _ _ Hp) as Hlen.
    unfold stack_num_elmnts. cbn [length].
    replace (Z.of_nat (S (length ns)) =? 1 + Z.of_nat (length dirs)) with true
      by (symmetry; apply Z.eqb_eq; lia).
    cbn [STACK_POP binary_node_get_element]. rewrite Hm.
    pose proof (path_frames _ _ _ _ _ HI1 Hp) as Hf. simpl size in Hf.
    destruct (path_I1 _ _ _ _ _ HI1 Hp) as [Hn1 _].
    destruct (remove_and_rebalance _ s c0 sz x c1 ns dirs (size (root_p s))
                Hn1 Hf Hmax)
      as (set1 & nodes1 & dirs1 & T & Hrem & Hreb & HTI1 & HTs & HTin & HTI3).
    rewrite Hrem, Hreb.
    exists true, T, (ctx_before ns dirs ++ inorder c0),
      (inorder c1 ++ ctx_after ns dirs).
    split; [reflexivity|]. split; [assumption|].
    split; [rewrite HTin; list_assoc|]. split; [assumption|]. split.
    { intros H3. destruct (path_I3 _ _ _ _ _ H3 Hp) as [Hn3 Hns3]. auto. }
    exists x. repeat split; trivial.
    rewrite (path_inorder _ _ _ _ _ Hp). list_assoc.
  - destruct Hres as (Hp & Hc & -> & ->).
    exists false, (root_p s), (ctx_before nodes dirs), (ctx_after nodes dirs).
    rewrite set_root_p_same.
    split; [reflexivity|]. split; [assumption|].
    split; [now rewrite (path_inorder _ _ _ _ _ Hp)|]. tauto.
Qed.

(** What the search by rank with a recorded path returns. *)
Lemma search_by_rank_spec rank copy :
  I1 (root_p s) -> size (root_p s) < u32_modulus ->
  1 <= rank <= size (root_p s) ->
  exists c0 sz x c1 ns ds,
    sorted_set_search_by_rank s rank true (Some []) (Some []) copy
    = Some (Node c0 sz x c1 :: ns, ds, option_map (fun _ => x) copy) /\
    path (root_p s) ns ds (Node c0 sz x c1) /\
    Z.of_nat (length (ctx_before ns ds ++ inorder c0)) = rank - 1.
Proof.
  intros HI1 Hmax Hr. unfold sorted_set_search_by_rank.
  cbn [stack_is_empty andb].
  destruct (search_by_rank_while_ok _ (root_p s) (root_p s) rank [] [] copy
              (path_root (root_p s)) HI1 Hmax Hr)
    as (c0 & sz & x & c1 & ns & ds & Hrun & Hp & Hlen).
  exists c0, sz, x, c1, ns, ds. repeat split; trivial.
Qed.

Lemma get_element_by_rank_spec rank copy :
  I1 (root_p s) -> size (root_p s) < u32_modulus ->
  1 <= rank <= size (root_p s) ->
  exists before x after,
    sorted_set_get_element_by_rank s rank copy
    = Some (option_map (fun _ => x) copy) /\
    inorder (root_p s) = before ++ x :: after /\
    Z.of_nat (length before) = rank - 1.
Proof.
  intros HI1 Hmax Hr.
  destruct (search_by_rank_spec rank copy HI1 Hmax Hr)
    as (c0 & sz & x & c1 & ns & ds & Hrun & Hp & Hlen).
  unfold sorted_set_search_by_rank in Hrun.
  cbn [stack_is_empty andb] in Hrun.
  unfold sorted_set_get_element_by_rank, sorted_set_search_by_rank.
  pose proof (search_by_rank_while_csp _ (root_p s) rank [] [] copy) as Hcsp.
  rewrite Hrun in Hcsp. cbn [option_map snd] in Hcsp.
  destruct (sorted_set_search_by_rank_while false (root_p s) rank [] [] copy)
    as [[[n1 d1] c']|]; [|discriminate].
  cbn [option_map snd] in Hcsp. injection Hcsp as ->.
  exists (ctx_before ns ds ++ inorder c0), x, (inorder c1 ++ ctx_after ns ds).
  split; [reflexivity|]. split; [|assumption].
  rewrite (path_inorder _ _ _ _ _ Hp). list_assoc.
Qed.

(** Removal by rank. *)
Lemma remove_by_rank_spec rank copy :
  I1 (root_p s) -> size (root_p s) <= max_elements ->
  1 <= rank <= size (root_p s) ->
  exists T before x after,
    sorted_set_remove_by_rank s rank copy
    = Some (set_root_p s T, option_map (fun _ => x) copy) /\
    inorder (root_p s) = before ++ x :: after /\
    Z.of_nat (length before) = rank - 1 /\
    inorder T = before ++ after /\ I1 T /\
    size T = size (root_p s) - 1 /\
    (I3 (root_p s) -> I3 T).
Proof.
  intros HI1 Hmax Hr.
  destruct (search_by_rank_spec rank copy HI1) as
    (c0 & sz & x & c1 & ns & ds & Hrun & Hp & Hlen); [u32_side | assumption |].
  unfold sorted_set_remove_by_rank. unfold stack_create. cbv zeta.
  use_search Hrun.
  pose proof (path_length _ _ _ _ _ Hp) as Hl.
  unfold stack_num_elmnts. cbn [length].
  replace (Z.of_nat (S (length ns)) =? 1 + Z.of_nat (length ds)) with true
    by (symmetry; apply Z.eqb_eq; lia).
  cbn [STACK_POP].
  pose proof (path_frames _ _ _ _ _ HI1 Hp) as Hf. simpl size in Hf.
  destruct (path_I1 _ _ _ _ _ HI1 Hp) as [Hn1 _].
  destruct (remove_and_rebalance _ s c0 sz x c1 ns ds (size (root_p s))
              Hn1 Hf Hmax)
    as (set1 & nodes1 & dirs1 & T & Hrem & Hreb & HTI1 & HTs & HTin & HTI3).
  rewrite Hrem, Hreb.
  exists T, (ctx_before ns ds ++ inorder c0), x,
    (inorder c1 ++ ctx_after ns ds).
  split; [reflexivity|].
  split; [rewrite (path_inorder _ _ _ _ _ Hp); list_assoc|].
  split; [assumption|].
  split; [rewrite HTin; list_assoc|]. split; [assumption|].
  split; [assumption|].
  intros H3. destruct (path_I3 _ _ _ _ _ H3 Hp) as [Hn3 Hns3]. auto.
Qed.

End OperationFacts.

(** ** Sets reachable by the operations *)

Section ReachableFacts.

Variable E : Type.
Implicit Types s : sorted_set_s E.

Lemma sorted_insert_between (R : E -> E -> Prop) before after e :
  StronglySorted R (before ++ after) ->
  Forall (fun y => R y e) before -> Forall (fun y => R e y) after ->
  StronglySorted R (before ++ e :: after).
Proof.
  intros Hs Hb Ha. apply sorted_app in Hs. destruct Hs as (H1 & H2 & H3).
  apply sorted_app. split; [assumption|]. split.
  - now constructor.
  - rewrite Forall_forall in *. intros y Hy. constructor; auto.
Qed.

Lemma sorted_remove_middle (R : E -> E -> Prop) before after x :
  StronglySorted R (before ++ x :: after) -> StronglySorted R (before ++ after).
Proof.
  intros Hs. apply sorted_app in Hs. destruct Hs as (H1 & H2 & H3).
  apply sorted_cons in H2. destruct H2 as [H2 _].
  apply sorted_app. split; [assumption|]. split; [assumption|].
  eapply Forall_impl; [|exact H3]. intros y Hy. now inversion Hy.
Qed.

Lemma insert_invariant s e rank_in found s' rank' :
  set_invariant s -> size (root_p s) < max_elements ->
  sorted_set_insert s e rank_in = Some (found, s', rank') ->
  set_invariant s' /\ is_match s' = is_match s /\ is_less s' = is_less s.
Proof.
  intros (H1 & H3 & Hmax & H2) Hlt Hrun.
  destruct (insert_spec _ s e rank_in H1 Hlt)
    as (f & T & before & after & Hrun' & Hord & Hin & HT1 & HT3 & Hres).
  rewrite Hrun' in Hrun. injection Hrun as <- <- <-.
  split; [|split; reflexivity].
  unfold set_invariant. cbn [set_root_p root_p is_match is_less].
  split; [assumption|]. split; [auto|]. split.
  - destruct f.
    + destruct Hres as (x & _ & _ & Hsh & _).
      rewrite (shape_size _ _ _ _ Hsh). assumption.
    + destruct Hres as (_ & Hsz & _). lia.
  - intros laws. specialize (H2 laws). destruct (Hord laws H2) as [Hb Ha].
    unfold I2 in *. cbn [is_less]. rewrite Hin.
    apply sorted_insert_between; trivial.
    destruct f.
    + destruct Hres as (x & _ & Hx & _). rewrite Hx in H2.
      eapply sorted_remove_middle; eassumption.
    + destruct Hres as (Hx & _). now rewrite <- Hx.
Qed.

Lemma remove_invariant s e rank_in found s' rank' :
  set_invariant s ->
  sorted_set_remove s e rank_in = Some (found, s', rank') ->
  set_invariant s' /\ is_match s' = is_match s /\ is_less s' = is_less s.
Proof.
  intros (H1 & H3 & Hmax & H2) Hrun.
  destruct (remove_spec _ s e rank_in H1 Hmax)
    as (f & T & before & after & Hrun' & Hord & Hin & HT1 & HT3 & Hres).
  rewrite Hrun' in Hrun. injection Hrun as <- <- <-.
  split; [|split; reflexivity].
  unfold set_invariant. cbn [set_root_p root_p is_match is_less].
  split; [assumption|]. split; [auto|]. split.
  - destruct f.
    + destruct Hres as (x & _ & _ & Hsz). lia.
    + now subst T.
  - intros laws. specialize (H2 laws).
    unfold I2 in *. cbn [is_less]. rewrite Hin.
    destruct f.
    + destruct Hres as (x & _ & Hx & _). rewrite Hx in H2.
      eapply sorted_remove_middle; eassumption.
    + subst T. now rewrite <- Hin.
Qed.

Lemma remove_by_rank_invariant s rank copy s' copy' :
  set_invariant s ->
  sorted_set_remove_by_rank s rank copy = Some (s', copy') ->
  set_invariant s' /\ is_match s' = is_match s /\ is_less s' = is_less s.
Proof.
  intros (H1 & H3 & Hmax & H2) Hrun.
  assert (Hr : 1 <= rank <= size (root_p s)).
  { destruct (Z_le_gt_dec 1 rank) as [Hlo|Hlo];
      [destruct (Z_le_gt_dec rank (size (root_p s))) as [Hhi|Hhi]|];
      [lia| |].
    all: unfold sorted_set_remove_by_rank, sorted_set_search_by_rank in Hrun;
      cbv zeta in Hrun; cbn [stack_create stack_is_empty andb] in Hrun;
      rewrite search_by_rank_while_out_of_range in Hrun by lia;
      discriminate. }
  destruct (remove_by_rank_spec _ s rank copy H1 Hmax Hr)
    as (T & before & x & after & Hrun' & Hx & Hlen & Hin & HT1 & HTs & HT3).
  rewrite Hrun' in Hrun. injection Hrun as <- <-.
  split; [|split; reflexivity].
  unfold set_invariant. cbn [set_root_p root_p is_match is_less].
  split; [assumption|]. split; [auto|]. split; [lia|].
  intros laws. specialize (H2 laws). unfold I2 in *. cbn [is_less].
  rewrite Hin. rewrite Hx in H2. eapply sorted_remove_middle; eassumption.
Qed.

Lemma reachable_invariant cap s0 s :
  cap <= max_elements -> set_invariant s0 -> reachable cap s0 s ->
  set_invariant s /\ is_match s = is_match s0 /\ is_less s = is_less s0.
Proof.
  intros Hcap H0. induction 1 as
    [| s e r found s' rank' Hreach [IH [IHm IHl]] Hlt Hrun
     | s e r found s' rank' Hreach [IH [IHm IHl]] Hrun
     | s rank c s' copy' Hreach [IH [IHm IHl]] Hrun].
  - tauto.
  - destruct (insert_invariant s e r found s' rank' IH) as (Hi & Hm & Hl);
      trivial.
    + unfold sorted_set_get_num_elements in Hlt. lia.
    + split; [assumption|]. split; congruence.
  - destruct (remove_invariant s e r found s' rank' IH Hrun) as (Hi & Hm & Hl).
    split; [assumption|]. split; congruence.
  - destruct (remove_by_rank_invariant s rank c s' copy' IH Hrun)
      as (Hi & Hm & Hl).
    split; [assumption|]. split; congruence.
Qed.

Lemma create_invariant num_bytes (matches less : E -> E -> bool) :
  set_invariant (sorted_set_create num_bytes matches less).
Proof.
  unfold set_invariant, I2. simpl. repeat split; trivial.
  - rewrite max_elements_val. lia.
  - intros _. constructor.
Qed.

End ReachableFacts.

(** ** Positions in sorted sequences *)

Section PositionFacts.

Variable E : Type.
Variable s : sorted_set_s E.
Hypothesis laws : order_laws (is_match s) (is_less s).

Let lt (a b : E) : Prop := is_less s a b = true.

Lemma less_irrefl a : is_less s a a = false.
Proof.
  destruct (is_less s a a) eqn:H; trivial.
  destruct (less_not_match laws _ _ H) as [Hm _].
  rewrite (match_refl laws) in Hm. discriminate.
Qed.

Lemma less_asym a b : lt a b -> is_less s b a = false.
Proof.
  intros H. destruct (is_less s b a) eqn:H'; trivial.
  pose proof (less_trans laws _ _ _ H H') as Haa.
  rewrite less_irrefl in Haa. discriminate.
Qed.

Lemma match_not_less a b : is_match s a b = true -> is_less s b a = false.
Proof.
  intros H. destruct (is_less s b a) eqn:H'; trivial.
  destruct (less_not_match laws _ _ H') as [_ Hm]. congruence.
Qed.

Lemma filter_all (f : E -> bool) l :
  Forall (fun y => f y = true) l -> filter f l = l.
Proof.
  induction 1 as [|y l Hy _ IH]; simpl; trivial. now rewrite Hy, IH.
Qed.

Lemma filter_none (f : E -> bool) l :
  Forall (fun y => f y = false) l -> filter f l = [].
Proof.
  induction 1 as [|y l Hy _ IH]; simpl; trivial. now rewrite Hy, IH.
Qed.

Lemma count_less_split e before mid after :
  Forall (fun y => lt y e) before -> Forall (fun y => lt e y) after ->
  Forall (fun y => is_match s e y = true) mid ->
  length (filter (fun y => is_less s y e) (before ++ mid ++ after))
  = length before.
Proof.
  intros Hb Ha Hm. rewrite !filter_app.
  rewrite (filter_all _ before Hb).
  rewrite (filter_none _ mid), (filter_none _ after).
  - now rewrite !app_nil_r.
  - eapply Forall_impl; [|exact Ha]. intros y Hy. now apply less_asym.
  - eapply Forall_impl; [|exact Hm]. intros y Hy. now apply match_not_less.
Qed.

Lemma split_position (P : E -> Prop) l1 : forall a l2 l1' b l2',
  l1 ++ a :: l2 = l1' ++ b :: l2' ->
  Forall P l1' -> ~ P a -> Forall P l1 -> ~ P b ->
  length l1 = length l1'.
Proof.
  induction l1 as [|c l1 IH]; intros a l2 [|c' l1'] b l2' Heq H1' Ha H1 Hb;
    simpl in *; trivial.
  - injection Heq as -> _. inversion H1'; subst. contradiction.
  - injection Heq as -> _. inversion H1; subst. contradiction.
  - injection Heq as -> Heq. inversion H1; inversion H1'; subst.
    f_equal. eauto.
Qed.

Lemma sorted_before (l1 l2 : list E) x :
  StronglySorted lt (l1 ++ x :: l2) -> Forall (fun y => lt y x) l1.
Proof.
  intros H. apply sorted_app in H. destruct H as (_ & _ & H).
  eapply Forall_impl; [|exact H]. intros y Hy. now inversion Hy.
Qed.

Lemma sorted_nth (l : list E) :
  StronglySorted lt l ->
  forall i j a b, (i < j)%nat ->
    nth_error l i = Some a -> nth_error l j = Some b -> lt a b.
Proof.
  induction 1 as [|c l Hs IH Hc]; intros i j a b Hij Hi Hj.
  - destruct i; discriminate.
  - destruct j as [|j]; [lia|]. simpl in Hj.
    destruct i as [|i]; simpl in Hi.
    + injection Hi as <-. rewrite Forall_forall in Hc. apply Hc.
      eapply nth_error_In; eassumption.
    + apply (IH i j); trivial; lia.
Qed.

End PositionFacts.

Section WalkFacts.

Variable E : Type.

Lemma walk_record (t : binary_node_struct E) : forall trace,
  walk t false (@record_element E) trace = trace ++ inorder t /\
  walk t true (@record_element E) trace = trace ++ rev (inorder t).
Proof.
  induction t as [|c0 IH0 sz x c1 IH1]; intros trace; simpl.
  - now rewrite app_nil_r.
  - split.
    + rewrite (proj1 (IH0 trace)), (proj1 (IH1 _)).
      unfold record_element. list_assoc.
    + rewrite (proj2 (IH1 trace)), (proj2 (IH0 _)).
      unfold record_element. rewrite rev_app_distr. list_assoc.
Qed.

End WalkFacts.

(** ** The test of the sources *)

Example sorted_set_tmp_test_passes :
  sorted_set_tmp_test
  = Some (map Z.of_nat (seq 1 100),
          rev (map Z.of_nat (seq 1 51 ++ seq 53 48))).
Proof. vm_compute. reflexivity. Qed.

(** ** Concrete sets of the test's element type *)

Lemma u64_order_laws : order_laws is_match_u64 is_less_u64.
Proof.
  unfold is_match_u64, is_less_u64. constructor; intros.
  - apply Z.eqb_refl.
  - apply Z.ltb_lt in H. split; apply Z.eqb_neq; lia.
  - apply Z.ltb_lt in H, H0. apply Z.ltb_lt. lia.
  - apply Z.eqb_neq in H. apply Z.ltb_ge in H0. apply Z.ltb_lt. lia.
  - apply Z.eqb_eq in H. apply Z.ltb_lt in H0. apply Z.ltb_lt. lia.
  - apply Z.eqb_eq in H. apply Z.ltb_lt in H0. apply Z.ltb_lt. lia.
Defined.

(** The set holding 1, 2, 3 is reached by three insertions, the last of
    which rotates at the root; removing 2 by key and then the element of
    rank 1 leaves the set holding 3. *)
Lemma u64_reachable_123 :
  reachable max_elements (sorted_set_create 8 is_match_u64 is_less_u64)
    u64_set_123.
Proof.
  apply (@reachable_insert Z max_elements _
           (u64_set (Node NIL 2 1 (u64_leaf 2))) 3 None false _ None);
    [|vm_compute; reflexivity|vm_compute; reflexivity].
  apply (@reachable_insert Z max_elements _
           (u64_set (u64_leaf 1)) 2 None false _ None);
    [|vm_compute; reflexivity|vm_compute; reflexivity].
  apply (@reachable_insert Z max_elements _
           (u64_set NIL) 1 None false _ None);
    [|vm_compute; reflexivity|vm_compute; reflexivity].
  apply reachable_start.
Defined.


Lemma u64_set_123_I1 : I1 (root_p u64_set_123).
Proof. simpl. repeat split; reflexivity. Defined.

Lemma u64_set_123_I2 : I2 u64_set_123 (root_p u64_set_123).
Proof. unfold I2. simpl. repeat constructor. Defined.

Lemma u64_set_123_small :
  sorted_set_get_num_elements u64_set_123 < max_elements.
Proof. vm_compute. reflexivity. Defined.

Lemma u64_set_123_absent (e : Z) :
  e <> 1 -> e <> 2 -> e <> 3 ->
  forall x, In x (inorder (root_p u64_set_123)) ->
            is_match u64_set_123 e x = false.
Proof.
  intros H1 H2 H3 x Hx. simpl in Hx |- *. unfold is_match_u64.
  apply Z.eqb_neq. intuition congruence.
Defined.

(** * The claims *)





(** C3.  [sorted_set_remove(set, x)] on a set in which no stored element
    matches [x] returns false and leaves the set as it is, whatever the
    state of the tree.  On a set that satisfies I1, holds at most
    [max_elements] elements and is sorted under callbacks that form a
    strict order, if some stored element matches [x] the call returns true,
    the size decreases by exactly 1 and [sorted_set_contains(set, x)]
    returns false afterwards. *)
Theorem C3_remove_present_or_absent (E : Type) (s : sorted_set_s E) (x : E)
  (rank_copy_p : option Z) :
  ((forall y, In y (inorder (root_p s)) -> is_match s x y = false) ->
   exists rank', sorted_set_remove s x rank_copy_p = Some (false, s, rank')) /\
  (I1 (root_p s) -> sorted_set_get_num_elements s <= max_elements ->
   order_laws (is_match s) (is_less s) -> I2 s (root_p s) ->
   (exists y, In y (inorder (root_p s)) /\ is_match s x y = true) ->
   exists s' rank',
     sorted_set_remove s x rank_copy_p = Some (true, s', rank') /\
     sorted_set_get_num_elements s' = sorted_set_get_num_elements s - 1 /\
     forall element_found rank_p,
     exists rank'',
       sorted_set_contains s' x element_found rank_p
       = Some (false, element_found, rank'')).
Proof.
  split; [apply remove_absent|].
  unfold sorted_set_get_num_elements.
  intros HI1 Hsz laws H2 (y & Hy & Hm).
  destruct (remove_spec E s x rank_copy_p HI1 Hsz)
    as (found & T & before & after & Hrun & Hord & Hin & HT1 & HT3 & Hres).
  destruct (Hord laws H2) as [Hb Ha].
  destruct found.
  - destruct Hres as (x' & Hm' & Hx' & HTs).
    exists (set_root_p s T),
      (option_map (fun _ => 1 + Z.of_nat (length before)) rank_copy_p).
    split; [exact Hrun|]. cbn [set_root_p root_p]. split; [assumption|].
    intros copy rank_p.
    destruct (contains_spec E (set_root_p s T) x copy rank_p)
      as (found' & copy' & before' & after' & Hrun' & _ & Hres');
      cbn [set_root_p root_p]; trivial; [u32_side|].
    rewrite Hrun'. destruct found'.
    + destruct Hres' as (z & Hz & _ & Hzin).
      cbn [set_root_p root_p is_match] in *.
      rewrite (bounds_exclude_match E s x before after laws Hb Ha z) in Hz;
        [discriminate|].
      rewrite <- Hin, Hzin. apply in_or_app. right. now left.
    + destruct Hres' as [-> _]. eexists. reflexivity.
  - subst T. rewrite Hin in Hy.
    rewrite (bounds_exclude_match E s x before after laws Hb Ha y Hy) in Hm.
    discriminate.
Qed.

Lemma C3_witness :
  ((forall y, In y (inorder (root_p u64_set_123)) ->
              is_match u64_set_123 7 y = false) /\
   I1 (root_p u64_set_123) /\
   sorted_set_get_num_elements u64_set_123 <= max_elements /\
   order_laws (is_match u64_set_123) (is_less u64_set_123) /\
   I2 u64_set_123 (root_p u64_set_123) /\
   (exists y, In y (inorder (root_p u64_set_123)) /\
              is_match u64_set_123 2 y = true)) /\
  (exists rank',
      sorted_set_remove u64_set_123 7 (Some 0)
      = Some (false, u64_set_123, rank')) /\
  (exists s' rank',
     sorted_set_remove u64_set_123 2 (Some 0) = Some (true, s', rank') /\
     sorted_set_get_num_elements s'
     = sorted_set_get_num_elements u64_set_123 - 1 /\
     forall element_found rank_p,
     exists rank'',
       sorted_set_contains s' 2 element_found rank_p
       = Some (false, element_found, rank'')).
Proof.
  assert (Habs : forall y, In y (inorder (root_p u64_set_123)) ->
                           is_match u64_set_123 7 y = false)
    by (apply u64_set_123_absent; discriminate).
  assert (Hle : sorted_set_get_num_elements u64_set_123 <= max_elements)
    by (vm_compute; discriminate).
  assert (Hex : exists y, In y (inorder (root_p u64_set_123)) /\
                          is_match u64_set_123 2 y = true)
    by (exists 2; split; [simpl; tauto | reflexivity]).
  split.
  - split; [exact Habs|]. split; [exact u64_set_123_I1|].
    split; [exact Hle|]. split; [exact u64_order_laws|].
    split; [exact u64_set_123_I2 | exact Hex].
  - split.
    + exact (proj1 (C3_remove_present_or_absent Z u64_set_123 7 (Some 0))
               Habs).
    + exact (proj2 (C3_remove_present_or_absent Z u64_set_123 2 (Some 0))
               u64_set_123_I1 Hle u64_order_laws u64_set_123_I2 Hex).
Defined.

(** C4.  On a sorted set of [n] elements that satisfies I1 ([n + 1] being
    a 32-bit value), with callbacks that form a strict order, and for a
    rank [r] with [1 <= r <= n]: [sorted_set_get_element_by_rank(set, r)]
    copies out the element at the 1-based in-order position [r], and
    [sorted_set_contains] on that element, asked for the rank, reports
    found and writes [r]. *)
Theorem C4_rank_round_trip (E : Type) (s : sorted_set_s E) (rank : Z)
  (buffer : E) (old_rank : Z) :
  I1 (root_p s) -> sorted_set_get_num_elements s + 1 < u32_modulus ->
  order_laws (is_match s) (is_less s) -> I2 s (root_p s) ->
  1 <= rank <= sorted_set_get_num_elements s ->
  exists x,
    sorted_set_get_element_by_rank s rank (Some buffer) = Some (Some x) /\
    nth_error (inorder (root_p s)) (Z.to_nat (rank - 1)) = Some x /\
    forall element_found,
    exists copy',
      sorted_set_contains s x element_found (Some old_rank)
      = Some (true, copy', Some rank).
Proof.
  unfold sorted_set_get_num_elements. intros HI1 Hsz laws H2 Hr.
  destruct (get_element_by_rank_spec E s rank (Some buffer) HI1)
    as (before & x & after & Hrun & Hin & Hlen); [lia | assumption |].
  exists x. split; [exact Hrun|]. split.
  - rewrite Hin. replace (Z.to_nat (rank - 1)) with (length before) by lia.
    rewrite nth_error_app2, Nat.sub_diag by lia. reflexivity.
  - intros copy.
    destruct (contains_spec E s x copy (Some old_rank) HI1 Hsz)
      as (found & copy' & before' & after' & Hrun' & Hord & Hres).
    destruct (Hord laws H2) as [Hb Ha].
    destruct found.
    + destruct Hres as (y & Hm & _ & Hin').
      exists copy'. rewrite Hrun'. cbn [option_map]. do 3 f_equal.
      assert (Hl : length before = length before').
      { unfold I2 in H2. rewrite Hin in H2.
        apply (split_position E (fun z => is_less s z x = true)
                 before x after before' y after').
        - now rewrite <- Hin.
        - assumption.
        - rewrite (less_irrefl E s laws). discriminate.
        - exact (sorted_before E s before after x H2).
        - rewrite (match_not_less E s laws _ _ Hm). discriminate. }
      lia.
    + destruct Hres as [_ Hin'].
      assert (Hx : In x (before' ++ after')).
      { rewrite <- Hin', Hin. apply in_or_app. right. now left. }
      pose proof (bounds_exclude_match E s x before' after' laws Hb Ha x Hx)
        as Hm.
      rewrite (match_refl laws) in Hm. discriminate.
Qed.

Lemma C4_witness :
  (I1 (root_p u64_set_123) /\
   sorted_set_get_num_elements u64_set_123 + 1 < u32_modulus /\
   order_laws (is_match u64_set_123) (is_less u64_set_123) /\
   I2 u64_set_123 (root_p u64_set_123) /\
   1 <= 3 <= sorted_set_get_num_elements u64_set_123) /\
  exists x,
    sorted_set_get_element_by_rank u64_set_123 3 (Some 0) = Some (Some x) /\
    nth_error (inorder (root_p u64_set_123)) (Z.to_nat (3 - 1)) = Some x /\
    forall element_found,
    exists copy',
      sorted_set_contains u64_set_123 x element_found (Some 0)
      = Some (true, copy', Some 3).
Proof.
  assert (Hle : sorted_set_get_num_elements u64_set_123 + 1 < u32_modulus)
    by (vm_compute; reflexivity).
  assert (Hr : 1 <= 3 <= sorted_set_get_num_elements u64_set_123)
    by (vm_compute; split; discriminate).
  split.
  - split; [exact u64_set_123_I1|]. split; [exact Hle|].
    split; [exact u64_order_laws|]. split; [exact u64_set_123_I2 | exact Hr].
  - exact (C4_rank_round_trip Z u64_set_123 3 0 0 u64_set_123_I1 Hle
             u64_order_laws u64_set_123_I2 Hr).
Defined.






(** C7.  For a real node [y] whose child [x = y.child[1-dir]] is real and
    whose subtree satisfies I1 (with a size that fits 32 bits),
    [rotation(y, dir)] passes its assertions and returns [x] as the new
    root and [y] as its [dir] child, with the size [y] had and the same
    in-order sequence; when moreover [y.child[1-dir].child[dir]] is real,
    [double_rotation(y, dir)] returns that node as the new root, between
    [y.child[1-dir]] and [y], again with the size [y] had and the same
    in-order sequence. *)
Theorem C7_rotations_keep_size_and_order (E : Type)
  (y : binary_node_struct E) (dir : bool) :
  is_NIL y = false -> is_NIL (child y (negb dir)) = false ->
  I1 y -> size y < u32_modulus ->
  (exists x',
      rotation y dir = Some x' /\
      binary_node_get_element x'
      = binary_node_get_element (child y (negb dir)) /\
      binary_node_get_element (child x' dir) = binary_node_get_element y /\
      size x' = size y /\ inorder x' = inorder y /\ I1 x') /\
  (is_NIL (child (child y (negb dir)) dir) = false ->
   exists x',
      double_rotation y dir = Some x' /\
      binary_node_get_element x'
      = binary_node_get_element (child (child y (negb dir)) dir) /\
      binary_node_get_element (child x' (negb dir))
      = binary_node_get_element (child y (negb dir)) /\
      binary_node_get_element (child x' dir) = binary_node_get_element y /\
      size x' = size y /\ inorder x' = inorder y /\ I1 x').
Proof.
  intros Hy Hx HI1 Hsz.
  destruct y as [|l sy ey r]; [discriminate|].
  destruct dir; simpl in Hx, HI1, Hsz |- *.
  - destruct l as [|B sx ex C]; [discriminate|].
    destruct HI1 as (Hsy & (Hsx & HB & HC) & HA). simpl in Hsy.
    pose proof (I1_size_nonneg _ _ HB). pose proof (I1_size_nonneg _ _ HC).
    pose proof (I1_size_nonneg _ _ HA).
    split.
    + rewrite rotation_right by (trivial; lia).
      eexists. split; [reflexivity|]. simpl.
      repeat split; trivial; [list_assoc | lia].
    + intros HCnil. destruct C as [|C1 sc ec C2]; [discriminate|].
      destruct HC as (Hsc & HC1 & HC2). simpl in *.
      pose proof (I1_size_nonneg _ _ HC1). pose proof (I1_size_nonneg _ _ HC2).
      rewrite double_rotation_right by (trivial; lia).
      eexists. split; [reflexivity|]. simpl.
      repeat split; trivial; [list_assoc | lia].
  - destruct r as [|C sx ex B]; [discriminate|].
    destruct HI1 as (Hsy & HA & (Hsx & HC & HB)). simpl in Hsy.
    pose proof (I1_size_nonneg _ _ HB). pose proof (I1_size_nonneg _ _ HC).
    pose proof (I1_size_nonneg _ _ HA).
    split.
    + rewrite rotation_left by (trivial; lia).
      eexists. split; [reflexivity|]. simpl.
      repeat split; trivial; [list_assoc | lia].
    + intros HCnil. destruct C as [|C2 sc ec C1]; [discriminate|].
      destruct HC as (Hsc & HC2 & HC1). simpl in *.
      pose proof (I1_size_nonneg _ _ HC1). pose proof (I1_size_nonneg _ _ HC2).
      rewrite double_rotation_left by (trivial; lia).
      eexists. split; [reflexivity|]. simpl.
      repeat split; trivial; [list_assoc | lia].
Qed.

Lemma C7_witness :
  let y := Node (Node (u64_leaf 1) 3 2 (u64_leaf 3)) 5 4 (u64_leaf 5) in
  (is_NIL y = false /\ is_NIL (child y (negb true)) = false /\
   I1 y /\ size y < u32_modulus) /\
  (exists x',
      rotation y true = Some x' /\
      binary_node_get_element x'
      = binary_node_get_element (child y (negb true)) /\
      binary_node_get_element (child x' true) = binary_node_get_element y /\
      size x' = size y /\ inorder x' = inorder y /\ I1 x') /\
  (is_NIL (child (child y (negb true)) true) = false ->
   exists x',
      double_rotation y true = Some x' /\
      binary_node_get_element x'
      = binary_node_get_element (child (child y (negb true)) true) /\
      binary_node_get_element (child x' (negb true))
      = binary_node_get_element (child y (negb true)) /\
      binary_node_get_element (child x' true) = binary_node_get_element y /\
      size x' = size y /\ inorder x' = inorder y /\ I1 x').
Proof.
  intros y.
  assert (H1 : is_NIL y = false) by reflexivity.
  assert (H2 : is_NIL (child y (negb true)) = false) by reflexivity.
  assert (H3 : I1 y) by (simpl; repeat split; reflexivity).
  assert (H4 : size y < u32_modulus) by (vm_compute; reflexivity).
  split; [repeat split; assumption|].
  exact (C7_rotations_keep_size_and_order Z y true H1 H2 H3 H4).
Defined.

(** C8.  On a set that satisfies I1 (its size fitting 32 bits) and for a
    rank between 1 and the size of the root, the descent by rank passes
    every assertion of its loop, visits real nodes only and stops at a
    real node, whose element is the one copied out; the element read is
    never that of the sentinel.
    For any other rank the descent ends in a failed assertion. *)
Theorem C8_rank_descent_stays_on_real_nodes (E : Type) (s : sorted_set_s E)
  (rank : Z) (element_copy_p : option E) :
  I1 (root_p s) -> size (root_p s) < u32_modulus ->
  (1 <= rank <= size (root_p s) ->
   (exists c0 sz x c1 ns ds,
       sorted_set_search_by_rank s rank true (Some []) (Some [])
         element_copy_p
       = Some (Node c0 sz x c1 :: ns, ds,
               option_map (fun _ => x) element_copy_p) /\
       path (root_p s) ns ds (Node c0 sz x c1) /\
       Forall (fun n => is_NIL n = false) ns) /\
   (exists x,
       sorted_set_get_element_by_rank s rank element_copy_p
       = Some (option_map (fun _ => x) element_copy_p) /\
       In x (inorder (root_p s)))) /\
  (rank < 1 \/ size (root_p s) < rank ->
   sorted_set_get_element_by_rank s rank element_copy_p = None /\
   sorted_set_remove_by_rank s rank element_copy_p = None).
Proof.
  intros HI1 Hsz. split.
  - intros Hr. split.
    + destruct (search_by_rank_spec E s rank element_copy_p HI1 Hsz Hr)
        as (c0 & sz & x & c1 & ns & ds & Hrun & Hp & _).
      exists c0, sz, x, c1, ns, ds. split; [assumption|].
      split; [assumption|].
      exact (frames_ok_real _ _ _ _ _ (path_frames _ _ _ _ _ HI1 Hp)).
    + destruct (get_element_by_rank_spec E s rank element_copy_p HI1 Hsz Hr)
        as (before & x & after & Hrun & Hin & _).
      exists x. split; [assumption|]. rewrite Hin.
      apply in_or_app. right. now left.
  - intros Hr.
    unfold sorted_set_get_element_by_rank, sorted_set_remove_by_rank,
      sorted_set_search_by_rank.
    cbv zeta. cbn [stack_create stack_is_empty andb].
    now rewrite !search_by_rank_while_out_of_range.
Qed.

Lemma C8_witness :
  let s := u64_set (Node (u64_leaf 1) 3 2 (u64_leaf 3)) in
  (I1 (root_p s) /\ size (root_p s) < u32_modulus) /\
  (1 <= 3 <= size (root_p s) ->
   (exists c0 sz x c1 ns ds,
       sorted_set_search_by_rank s 3 true (Some []) (Some []) (Some 0)
       = Some (Node c0 sz x c1 :: ns, ds, option_map (fun _ => x) (Some 0))
       /\ path (root_p s) ns ds (Node c0 sz x c1)
       /\ Forall (fun n => is_NIL n = false) ns) /\
   (exists x,
       sorted_set_get_element_by_rank s 3 (Some 0)
       = Some (option_map (fun _ => x) (Some 0)) /\
       In x (inorder (root_p s)))) /\
  (3 < 1 \/ size (root_p s) < 3 ->
   sorted_set_get_element_by_rank s 3 (Some 0) = None /\
   sorted_set_remove_by_rank s 3 (Some 0) = None).
Proof.
  intros s.
  assert (H1 : I1 (root_p s)) by (simpl; repeat split; reflexivity).
  assert (H2 : size (root_p s) < u32_modulus) by (vm_compute; reflexivity).
  split; [split; assumption|].
  exact (C8_rank_descent_stays_on_real_nodes Z s 3 (Some 0) H1 H2).
Defined.

(** C9.  On a freshly created set the number of elements is 0 (the size
    field of the sentinel), [sorted_set_contains] returns false for every
    element and [sorted_set_remove] returns false and leaves the set as it
    is. *)
Theorem C9_empty_set (E : Type) (num_bytes : Z) (matches less : E -> E -> bool) :
  let s := sorted_set_create num_bytes matches less in
  root_p s = NIL /\
  sorted_set_get_num_elements s = size (@NIL E) /\
  sorted_set_get_num_elements s = 0 /\
  (forall e element_found rank_copy_p,
      exists rank',
        sorted_set_contains s e element_found rank_copy_p
        = Some (false, element_found, rank')) /\
  (forall e rank_copy_p,
      exists rank',
        sorted_set_remove s e rank_copy_p = Some (false, s, rank')).
Proof.
  simpl. repeat split.
  - intros e copy rank. eexists. reflexivity.
  - intros e rank. eexists. reflexivity.
Qed.

(** C10.  On a sorted set that satisfies I1 and holds fewer than
    [max_elements] elements, with callbacks that form a strict order, a
    keyed search that is given a rank variable always overwrites it with
    the 1-based in-order position of the element: the position of the
    stored element that matches, or the position the element would take.
    So [sorted_set_contains] and [sorted_set_remove] of an absent key
    return false and still write that position, and [sorted_set_insert] of
    a new key returns false and writes the rank the new element has after
    the insertion. *)
Theorem C10_rank_written_even_when_absent (E : Type) (s : sorted_set_s E)
  (e : E) (old_rank : Z) :
  I1 (root_p s) -> sorted_set_get_num_elements s < max_elements ->
  order_laws (is_match s) (is_less s) -> I2 s (root_p s) ->
  (forall element_found,
   exists found copy',
     sorted_set_contains s e element_found (Some old_rank)
     = Some (found, copy', Some (position s e)) /\
     (found = true ->
      exists x, nth_error (inorder (root_p s)) (Z.to_nat (position s e - 1))
                = Some x /\ is_match s e x = true)) /\
  (exists found s',
     sorted_set_remove s e (Some old_rank)
     = Some (found, s', Some (position s e))) /\
  (exists found s',
     sorted_set_insert s e (Some old_rank)
     = Some (found, s', Some (position s e)) /\
     (found = false ->
      nth_error (inorder (root_p s')) (Z.to_nat (position s e - 1))
      = Some e)) /\
  ((forall y, In y (inorder (root_p s)) -> is_match s e y = false) ->
   (forall element_found,
      sorted_set_contains s e element_found (Some old_rank)
      = Some (false, element_found, Some (position s e))) /\
   sorted_set_remove s e (Some old_rank)
   = Some (false, s, Some (position s e)) /\
   exists s',
     sorted_set_insert s e (Some old_rank)
     = Some (false, s', Some (position s e)) /\
     nth_error (inorder (root_p s')) (Z.to_nat (position s e - 1)) = Some e).
Proof.
  unfold sorted_set_get_num_elements. intros HI1 Hsz laws H2.
  assert (Hpos : forall before mid after,
             inorder (root_p s) = before ++ mid ++ after ->
             Forall (fun y => is_less s y e = true) before ->
             Forall (fun y => is_less s e y = true) after ->
             Forall (fun y => is_match s e y = true) mid ->
             position s e = 1 + Z.of_nat (length before)).
  { intros before mid after Hin Hb Ha Hmid. unfold position.
    now rewrite Hin, (count_less_split E s laws e before mid after Hb Ha Hmid). }
  assert (Hnth : forall (before after : list E) k,
             k = 1 + Z.of_nat (length before) ->
             nth_error (before ++ e :: after) (Z.to_nat (k - 1)) = Some e).
  { intros before after k ->.
    replace (Z.to_nat (1 + Z.of_nat (length before) - 1))
      with (length before) by lia.
    now rewrite nth_error_app2, Nat.sub_diag by lia. }
  assert (Hcontains : forall element_found,
    exists found copy',
     sorted_set_contains s e element_found (Some old_rank)
     = Some (found, copy', Some (position s e)) /\
     (found = false -> copy' = element_found) /\
     (found = true ->
      exists x, nth_error (inorder (root_p s)) (Z.to_nat (position s e - 1))
                = Some x /\ is_match s e x = true)).
  { intros copy.
    destruct (contains_spec E s e copy (Some old_rank) HI1)
      as (found & copy' & before & after & Hrun & Hord & Hres); [u32_side|].
    destruct (Hord laws H2) as [Hb Ha].
    exists found, copy'. destruct found.
    - destruct Hres as (x & Hm & _ & Hin).
      assert (Hp := Hpos before [x] after Hin Hb Ha
                      (Forall_cons _ Hm (Forall_nil _))).
      rewrite Hrun, Hp. cbn [option_map].
      split; [reflexivity|]. split; [discriminate|]. intros _. exists x.
      split; [|assumption]. rewrite Hin.
      replace (Z.to_nat (1 + Z.of_nat (length before) - 1))
        with (length before) by lia.
      now rewrite nth_error_app2, Nat.sub_diag by lia.
    - destruct Hres as [Hc Hin].
      assert (Hp := Hpos before [] after Hin Hb Ha (Forall_nil _)).
      rewrite Hrun, Hp. cbn [option_map].
      split; [reflexivity|]. split; [intros _; exact Hc | discriminate]. }
  assert (Hremove : exists found s',
     sorted_set_remove s e (Some old_rank)
     = Some (found, s', Some (position s e)) /\
     (found = false -> s' = s)).
  { destruct (remove_spec E s e (Some old_rank) HI1)
      as (found & T & before & after & Hrun & Hord & Hin & _ & _ & Hres);
      [lia|].
    destruct (Hord laws H2) as [Hb Ha].
    exists found, (set_root_p s T). destruct found.
    - destruct Hres as (x & Hm & Hx & _).
      assert (Hp := Hpos before [x] after Hx Hb Ha
                      (Forall_cons _ Hm (Forall_nil _))).
      rewrite Hrun, Hp. split; [reflexivity | discriminate].
    - subst T.
      assert (Hp := Hpos before [] after Hin Hb Ha (Forall_nil _)).
      rewrite Hrun, Hp. split; [reflexivity|].
      intros _. apply set_root_p_same. }
  assert (Hinsert : exists found s',
     sorted_set_insert s e (Some old_rank)
     = Some (found, s', Some (position s e)) /\
     (found = false ->
      nth_error (inorder (root_p s')) (Z.to_nat (position s e - 1))
      = Some e)).
  { destruct (insert_spec E s e (Some old_rank) HI1 Hsz)
      as (found & T & before & after & Hrun & Hord & Hin & _ & _ & Hres).
    destruct (Hord laws H2) as [Hb Ha].
    exists found, (set_root_p s T). destruct found.
    - destruct Hres as (x & Hm & Hx & _).
      assert (Hp := Hpos before [x] after Hx Hb Ha
                      (Forall_cons _ Hm (Forall_nil _))).
      rewrite Hrun, Hp. split; [reflexivity | discriminate].
    - destruct Hres as (Hx & _).
      assert (Hp := Hpos before [] after Hx Hb Ha (Forall_nil _)).
      rewrite Hrun, Hp. split; [reflexivity|].
      intros _. cbn [set_root_p root_p]. rewrite Hin.
      now apply Hnth. }
  split.
  { intros copy. destruct (Hcontains copy) as (f & c & Hrun & _ & Hfound).
    exists f, c. split; assumption. }
  split.
  { destruct Hremove as (f & s' & Hrun & _). now exists f, s'. }
  split; [exact Hinsert|].
  intros Habs.
  assert (Hno : forall x, is_match s e x = true ->
                          In x (inorder (root_p s)) -> False).
  { intros x Hm Hx. rewrite (Habs x Hx) in Hm. discriminate. }
  split.
  { intros copy. destruct (Hcontains copy) as (f & c & Hrun & Hc & Hfound).
    destruct f.
    - destruct (Hfound eq_refl) as (x & Hx & Hm).
      exfalso. apply (Hno x Hm). eapply nth_error_In; eassumption.
    - now rewrite Hrun, (Hc eq_refl). }
  split.
  { destruct (remove_absent E s e (Some old_rank) Habs) as (r' & Hrun').
    destruct Hremove as (f & s' & Hrun & _). rewrite Hrun' in Hrun.
    injection Hrun as <- <- ->. exact Hrun'. }
  destruct Hinsert as (f & s' & Hrun & Hnew).
  destruct f.
  - exfalso.
    destruct (insert_spec E s e (Some old_rank) HI1 Hsz)
      as (found & T & before & after & Hrun' & _ & _ & _ & _ & Hres).
    rewrite Hrun in Hrun'. injection Hrun' as <- _ _.
    destruct Hres as (x & Hm & Hx & _).
    apply (Hno x Hm). rewrite Hx. apply in_or_app. right. now left.
  - exists s'. split; [exact Hrun | exact (Hnew eq_refl)].
Qed.

Lemma C10_witness :
  (I1 (root_p u64_set_123) /\
   sorted_set_get_num_elements u64_set_123 < max_elements /\
   order_laws (is_match u64_set_123) (is_less u64_set_123) /\
   I2 u64_set_123 (root_p u64_set_123) /\
   (forall y, In y (inorder (root_p u64_set_123)) ->
              is_match u64_set_123 7 y = false)) /\
  position u64_set_123 7 = 4 /\
  (forall element_found,
     sorted_set_contains u64_set_123 7 element_found (Some 0)
     = Some (false, element_found, Some (position u64_set_123 7))) /\
  sorted_set_remove u64_set_123 7 (Some 0)
  = Some (false, u64_set_123, Some (position u64_set_123 7)) /\
  exists s',
    sorted_set_insert u64_set_123 7 (Some 0)
    = Some (false, s', Some (position u64_set_123 7)) /\
    nth_error (inorder (root_p s')) (Z.to_nat (position u64_set_123 7 - 1))
    = Some 7.
Proof.
  assert (Habs : forall y, In y (inorder (root_p u64_set_123)) ->
                           is_match u64_set_123 7 y = false)
    by (apply u64_set_123_absent; discriminate).
  split.
  - split; [exact u64_set_123_I1|]. split; [exact u64_set_123_small|].
    split; [exact u64_order_laws|]. split; [exact u64_set_123_I2 | exact Habs].
  - split; [reflexivity|].
    exact (proj2 (proj2 (proj2
             (C10_rank_written_even_when_absent Z u64_set_123 7 0
                u64_set_123_I1 u64_set_123_small u64_order_laws
                u64_set_123_I2))) Habs).
Defined.

(** * Further properties of the code *)

(** ** Helper facts *)

Section MoreFacts.

Variable E : Type.
Implicit Types t root cur : binary_node_struct E.


Lemma subtree_destroy_log t (num_bytes : Z) : forall freed,
  exists nodes,
    subtree_destroy t num_bytes freed = freed ++ map (@freed_node E) nodes /\
    Permutation nodes (inorder t).
Proof.
  induction t as [|c0 IH0 sz x c1 IH1]; intros freed; simpl.
  - exists []. simpl. now rewrite app_nil_r.
  - destruct (IH0 freed) as (n0 & H0 & P0). rewrite H0.
    destruct (IH1 (freed ++ map (@freed_node E) n0)) as (n1 & H1 & P1).
    rewrite H1. exists (n0 ++ n1 ++ [x]). split.
    + rewrite !map_app. simpl. now rewrite <- !app_assoc.
    + apply Permutation_app; [assumption|].
      apply Permutation_trans with (x :: n1).
      * apply Permutation_sym, Permutation_cons_append.
      * now constructor.
Qed.

(** Each step of a descent in a balanced tree loses at least 2/7 of the
    weight. *)
Lemma path_weight root nodes dirs cur :
  I1 root -> I3 root -> path root nodes dirs cur ->
  7 ^ Z.of_nat (length nodes) * (size cur + 1)
  <= 5 ^ Z.of_nat (length nodes) * (size root + 1).
Proof.
  intros H1 H3. induction 1 as [|n nodes dir dirs Hp IH Hn].
  - simpl. lia.
  - destruct (path_I1 _ _ _ _ _ H1 Hp) as [Hn1 _].
    destruct (path_I3 _ _ _ _ _ H3 Hp) as [Hn3 _].
    destruct n as [|c0 sz e c1]; [discriminate|].
    destruct Hn1 as (Hs & Hc0 & Hc1). destruct Hn3 as (Hb & _ & _).
    rewrite balanced_at_iff in Hb.
    pose proof (I1_size_nonneg _ _ Hc0). pose proof (I1_size_nonneg _ _ Hc1).
    assert (Hstep : 7 * (size (child (Node c0 sz e c1) dir) + 1)
                    <= 5 * (sz + 1))
      by (destruct dir; simpl; lia).
    simpl size in IH. cbn [length]. rewrite Nat2Z.inj_succ, !Z.pow_succ_r by lia.
    assert (0 < 7 ^ Z.of_nat (length nodes)) by (apply Z.pow_pos_nonneg; lia).
    assert (0 < 5 ^ Z.of_nat (length nodes)) by (apply Z.pow_pos_nonneg; lia).
    nia.
Qed.

Lemma depth_bound (L n : Z) :
  0 <= L -> n < u32_modulus -> 7 ^ L <= 5 ^ L * (n + 1) -> L <= 65.
Proof.
  intros HL Hn Hpow. destruct (Z_le_gt_dec L 65) as [|Hgt]; trivial.
  exfalso. replace L with (66 + (L - 66)) in Hpow by lia.
  rewrite !Z.pow_add_r in Hpow by lia.
  assert (H5 : 0 < 5 ^ (L - 66)) by (apply Z.pow_pos_nonneg; lia).
  assert (H57 : 5 ^ (L - 66) <= 7 ^ (L - 66))
    by (apply Z.pow_le_mono_l; lia).
  assert (Hc : 5 ^ 66 * 4294967296 < 7 ^ 66) by (vm_compute; reflexivity).
  rewrite u32_modulus_val in Hn.
  assert (H566 : 0 < 5 ^ 66) by (vm_compute; reflexivity).
  nia.
Qed.

Lemma app_cons_inj (l1 : list E) : forall a l2 l1' b l2',
  l1 ++ a :: l2 = l1' ++ b :: l2' -> length l1 = length l1' ->
  l1 = l1' /\ a = b /\ l2 = l2'.
Proof.
  induction l1 as [|c l1 IH]; intros a l2 [|c' l1'] b l2' Heq Hlen;
    simpl in *; try discriminate.
  - injection Heq as -> ->. tauto.
  - injection Heq as -> Heq. injection Hlen as Hlen.
    destruct (IH _ _ _ _ _ Heq Hlen) as (-> & -> & ->). tauto.
Qed.

End MoreFacts.

Lemma u64_set_123_I3 : I3 (root_p u64_set_123).
Proof.
  simpl. unfold balanced_at. simpl.
  repeat split; intros [|]; simpl; discriminate.
Defined.

Lemma u64_set_123_u32 : size (root_p u64_set_123) < u32_modulus.
Proof. vm_compute. reflexivity. Defined.

Lemma u64_set_123_le : size (root_p u64_set_123) <= max_elements.
Proof. vm_compute. discriminate. Defined.

Lemma u64_set_123_rank_room : size (root_p u64_set_123) + 1 < u32_modulus.
Proof. vm_compute. reflexivity. Defined.

(** ** Traversal and teardown *)



(** X2.  [sorted_set_destroy] frees every node of the tree exactly once
    and then the header of the set, after whatever was freed before; on a
    tree that satisfies I1 the number of nodes freed is
    [sorted_set_get_num_elements]. *)
Theorem X2_destroy_frees_every_node_once (E : Type) (s : sorted_set_s E)
  (freed : list (freed_block E)) :
  exists nodes,
    sorted_set_destroy s freed
    = freed ++ map (@freed_node E) nodes ++ [freed_set] /\
    Permutation nodes (walk_in_order s (@record_element E) []) /\
    (I1 (root_p s) ->
     Z.of_nat (length nodes) = sorted_set_get_num_elements s).
Proof.
  unfold sorted_set_destroy, walk_in_order, sorted_set_get_num_elements.
  rewrite (proj1 (walk_record E (root_p s) [])). cbn [app].
  destruct (subtree_destroy_log E (root_p s) (num_bytes_per_elmnt s) freed)
    as (nodes & Hlog & Hperm).
  exists nodes. rewrite Hlog, <- app_assoc.
  split; [reflexivity|]. split; [assumption|].
  intros H1. rewrite (Permutation_length Hperm).
  symmetry. now apply I1_size_length.
Qed.

Lemma X2_witness :
  I1 (root_p u64_set_123) /\
  sorted_set_destroy u64_set_123 []
  = [freed_node 1; freed_node 3; freed_node 2; freed_set] /\
  exists nodes,
    sorted_set_destroy u64_set_123 []
    = [] ++ map (@freed_node Z) nodes ++ [freed_set] /\
    Permutation nodes (walk_in_order u64_set_123 (@record_element Z) []) /\
    (I1 (root_p u64_set_123) ->
     Z.of_nat (length nodes) = sorted_set_get_num_elements u64_set_123).
Proof.
  split; [exact u64_set_123_I1|]. split; [reflexivity|].
  exact (X2_destroy_frees_every_node_once Z u64_set_123 []).
Defined.

(** ** Balance *)

(** X3.  One step of the unwinding repairs a node: when the two subtrees of
    a node satisfy I1 and I3, their weights are out of balance by at most
    the effect of one insertion or removal ([near_balanced]) and the node
    has at most [max_elements] nodes below and including it, then
    [update_size] followed by [node_rebalance] passes every assertion and
    gives a subtree that satisfies I1 and I3, with the recomputed size and
    the same in-order sequence. *)
Theorem X3_rebalance_step_restores_balance (E : Type)
  (c0 c1 : binary_node_struct E) (stale_size : Z) (e : E) :
  I1 c0 -> I1 c1 -> I3 c0 -> I3 c1 -> near_balanced c0 c1 ->
  1 + size c0 + size c1 <= max_elements ->
  exists current subtree,
    update_size (Node c0 stale_size e c1) = Some current /\
    node_rebalance current = Some subtree /\
    I1 subtree /\ I3 subtree /\
    size subtree = 1 + size c0 + size c1 /\
    inorder subtree = inorder c0 ++ e :: inorder c1.
Proof.
  intros H0 H1 H03 H13 Hnear Hmax.
  pose proof (I1_size_nonneg _ _ H0). pose proof (I1_size_nonneg _ _ H1).
  destruct (node_rebalance_ok E c0 (1 + size c0 + size c1) e c1 H0 H1 eq_refl
              Hmax) as (t & Ht & Ht1 & Hts & Htin & Ht3).
  exists (Node c0 (1 + size c0 + size c1) e c1), t.
  split; [simpl; u32; reflexivity|].
  split; [assumption|]. split; [assumption|]. split; [auto|].
  split; assumption.
Qed.

Lemma X3_witness :
  let c0 := @NIL Z in
  let c1 := Node NIL 2 2 (u64_leaf 3) in
  (I1 c0 /\ I1 c1 /\ I3 c0 /\ I3 c1 /\ near_balanced c0 c1 /\
   1 + size c0 + size c1 <= max_elements) /\
  exists current subtree,
    update_size (Node c0 2 1 c1) = Some current /\
    node_rebalance current = Some subtree /\
    I1 subtree /\ I3 subtree /\
    size subtree = 1 + size c0 + size c1 /\
    inorder subtree = inorder c0 ++ 1 :: inorder c1.
Proof.
  intros c0 c1.
  assert (H0 : I1 c0) by exact I.
  assert (H1 : I1 c1) by (simpl; repeat split; reflexivity).
  assert (H03 : I3 c0) by exact I.
  assert (H13 : I3 c1).
  { simpl. unfold balanced_at. simpl.
    repeat split; intros [|]; simpl; discriminate. }
  assert (Hn : near_balanced c0 c1)
    by (unfold near_balanced; simpl; split; discriminate).
  assert (Hm : 1 + size c0 + size c1 <= max_elements)
    by (vm_compute; discriminate).
  split; [exact (conj H0 (conj H1 (conj H03 (conj H13 (conj Hn Hm)))))|].
  exact (X3_rebalance_step_restores_balance Z c0 c1 2 1 H0 H1 H03 H13 Hn Hm).
Defined.

(** X4.  On a set that satisfies I1 and I3 the keyed search descends at
    most 65 links: the number [k] of directions it records satisfies
    [7^k <= 5^k * (n + 1)] for a set of [n] elements, [n] being a 32-bit
    value.  The same holds for the descent by rank. *)
Theorem X4_search_depth_is_logarithmic (E : Type) (s : sorted_set_s E) :
  I1 (root_p s) -> I3 (root_p s) -> size (root_p s) < u32_modulus ->
  (forall e copy rank_copy_p found nodes dirs copy' rank',
      sorted_set_search s e true (Some []) (Some []) copy rank_copy_p
      = Some (found, nodes, dirs, copy', rank') ->
      7 ^ stack_num_elmnts dirs
      <= 5 ^ stack_num_elmnts dirs * (sorted_set_get_num_elements s + 1) /\
      stack_num_elmnts dirs <= 65) /\
  (forall rank copy nodes dirs copy',
      sorted_set_search_by_rank s rank true (Some []) (Some []) copy
      = Some (nodes, dirs, copy') ->
      7 ^ stack_num_elmnts dirs
      <= 5 ^ stack_num_elmnts dirs * (sorted_set_get_num_elements s + 1) /\
      stack_num_elmnts dirs <= 65).
Proof.
  intros H1 H3 Hu.
  assert (Hpath : forall ns ds cur,
             I1 cur -> path (root_p s) ns ds cur ->
             7 ^ stack_num_elmnts ds
             <= 5 ^ stack_num_elmnts ds * (sorted_set_get_num_elements s + 1)
             /\ stack_num_elmnts ds <= 65).
  { intros ns ds cur Hc Hp. unfold stack_num_elmnts, sorted_set_get_num_elements.
    pose proof (path_weight E _ _ _ _ H1 H3 Hp) as Hw.
    rewrite (path_length _ _ _ _ _ Hp) in Hw.
    pose proof (I1_size_nonneg _ _ Hc).
    assert (0 < 7 ^ Z.of_nat (length ds)) by (apply Z.pow_pos_nonneg; lia).
    assert (Hle : 7 ^ Z.of_nat (length ds)
                  <= 5 ^ Z.of_nat (length ds) * (size (root_p s) + 1)) by nia.
    split; [exact Hle|]. apply (depth_bound _ (size (root_p s))); trivial; lia. }
  split.
  - intros e copy rank_in found nodes dirs copy' rank' Hrun.
    unfold sorted_set_search in Hrun. cbn [stack_is_empty andb] in Hrun.
    injection Hrun as Hrun.
    pose proof (search_while_path E s (root_p s) e (root_p s) [] [] copy
                  (option_map (fun _ => 1) rank_in) (path_root (root_p s)))
      as Hp.
    rewrite Hrun in Hp. destruct found.
    + destruct Hp as (c0 & sz & x & c1 & ns & -> & Hp & _).
      apply (Hpath ns dirs _ (proj1 (path_I1 _ _ _ _ _ H1 Hp)) Hp).
    + destruct Hp as [Hp _]. apply (Hpath nodes dirs NIL I Hp).
  - intros rank copy nodes dirs copy' Hrun.
    destruct (Z_le_gt_dec 1 rank) as [Hlo|Hlo];
      [destruct (Z_le_gt_dec rank (size (root_p s))) as [Hhi|Hhi]|].
    + destruct (search_by_rank_spec E s rank copy H1 Hu (conj Hlo Hhi))
        as (c0 & sz & x & c1 & ns & ds & Hrun' & Hp & _).
      rewrite Hrun' in Hrun. injection Hrun as <- <- <-.
      apply (Hpath ns ds _ (proj1 (path_I1 _ _ _ _ _ H1 Hp)) Hp).
    + unfold sorted_set_search_by_rank in Hrun.
      cbn [stack_is_empty andb] in Hrun.
      rewrite search_by_rank_while_out_of_range in Hrun by lia. discriminate.
    + unfold sorted_set_search_by_rank in Hrun.
      cbn [stack_is_empty andb] in Hrun.
      rewrite search_by_rank_while_out_of_range in Hrun by lia. discriminate.
Qed.

Lemma X4_witness :
  (I1 (root_p u64_set_123) /\ I3 (root_p u64_set_123) /\
   size (root_p u64_set_123) < u32_modulus) /\
  exists found nodes dirs copy' rank',
    sorted_set_search u64_set_123 3 true (Some []) (Some []) None None
    = Some (found, nodes, dirs, copy', rank') /\
    7 ^ stack_num_elmnts dirs
    <= 5 ^ stack_num_elmnts dirs
       * (sorted_set_get_num_elements u64_set_123 + 1) /\
    stack_num_elmnts dirs <= 65.
Proof.
  split.
  - split; [exact u64_set_123_I1|].
    split; [exact u64_set_123_I3 | exact u64_set_123_u32].
  - exists true, [u64_leaf 3; Node (u64_leaf 1) 3 2 (u64_leaf 3)], [true],
      None, None.
    split; [reflexivity|].
    exact (proj1 (X4_search_depth_is_logarithmic Z u64_set_123
                    u64_set_123_I1 u64_set_123_I3 u64_set_123_u32)
             3 None None true _ [true] None None eq_refl).
Defined.

(** ** Lookups *)

Section KeyFacts.

Variable E : Type.
Variable s : sorted_set_s E.
Hypothesis laws : order_laws (is_match s) (is_less s).

(** In a sequence that holds [e] between smaller and larger elements, the
    place at which a search for [e] stops is the place of [e]. *)
Lemma split_at_key e before after before' x after' :
  before ++ e :: after = before' ++ x :: after' ->
  Forall (fun y => is_less s y e = true) before ->
  Forall (fun y => is_less s y e = true) before' ->
  is_match s e x = true ->
  before' = before /\ x = e /\ after' = after.
Proof.
  intros Heq Hb Hb' Hm.
  assert (Hlen : length before = length before').
  { apply (split_position E (fun z => is_less s z e = true)
             before e after before' x after' Heq); trivial.
    - rewrite (less_irrefl E s laws). discriminate.
    - rewrite (match_not_less E s laws _ _ Hm). discriminate. }
  destruct (app_cons_inj E _ _ _ _ _ _ Heq Hlen) as (-> & -> & ->). tauto.
Qed.

End KeyFacts.

Lemma get_element_by_rank_nth (E : Type) (s : sorted_set_s E) (rank : Z)
  (copy : option E) :
  I1 (root_p s) -> size (root_p s) < u32_modulus ->
  1 <= rank <= size (root_p s) ->
  exists x,
    sorted_set_get_element_by_rank s rank copy
    = Some (option_map (fun _ => x) copy) /\
    nth_error (inorder (root_p s)) (Z.to_nat (rank - 1)) = Some x.
Proof.
  intros H1 Hu Hr.
  destruct (get_element_by_rank_spec E s rank copy H1 Hu Hr)
    as (before & x & after & Hrun & Hin & Hlen).
  exists x. split; [assumption|]. rewrite Hin.
  replace (Z.to_nat (rank - 1)) with (length before) by lia.
  now rewrite nth_error_app2, Nat.sub_diag by lia.
Qed.

(** X5.  On a sorted set that satisfies I1, under callbacks that form a
    strict order, [sorted_set_contains] returns true exactly when some
    stored element matches the key; it then copies a stored element that
    matches the key into the caller's buffer, and otherwise leaves the
    buffer as it was. *)
Theorem X5_contains_finds_exactly_the_stored_keys (E : Type)
  (s : sorted_set_s E) (e buffer : E) (rank_copy_p : option Z) :
  I1 (root_p s) -> sorted_set_get_num_elements s + 1 < u32_modulus ->
  order_laws (is_match s) (is_less s) -> I2 s (root_p s) ->
  exists found copy' rank',
    sorted_set_contains s e (Some buffer) rank_copy_p
    = Some (found, copy', rank') /\
    (found = true <->
     exists x, In x (inorder (root_p s)) /\ is_match s e x = true) /\
    (found = true ->
     exists x, copy' = Some x /\ In x (inorder (root_p s)) /\
               is_match s e x = true) /\
    (found = false -> copy' = Some buffer).
Proof.
  unfold sorted_set_get_num_elements. intros H1 Hu laws H2.
  destruct (contains_spec E s e (Some buffer) rank_copy_p H1 Hu)
    as (found & copy' & before & after & Hrun & Hord & Hres).
  destruct (Hord laws H2) as [Hb Ha].
  exists found, copy',
    (option_map (fun _ => 1 + Z.of_nat (length before)) rank_copy_p).
  split; [exact Hrun|].
  destruct found.
  - destruct Hres as (x & Hm & Hc & Hin).
    assert (Hx : In x (inorder (root_p s)))
      by (rewrite Hin; apply in_or_app; right; now left).
    split; [split; [intros _; now exists x | reflexivity]|].
    split; [intros _; exists x; subst copy'; tauto | discriminate].
  - destruct Hres as [Hc Hin].
    split; [split; [discriminate|]|].
    + intros (x & Hx & Hm). rewrite Hin in Hx.
      rewrite (bounds_exclude_match E s e before after laws Hb Ha x Hx) in Hm.
      discriminate.
    + split; [discriminate | intros _; exact Hc].
Qed.

Lemma X5_witness :
  (I1 (root_p u64_set_123) /\
   sorted_set_get_num_elements u64_set_123 + 1 < u32_modulus /\
   order_laws (is_match u64_set_123) (is_less u64_set_123) /\
   I2 u64_set_123 (root_p u64_set_123)) /\
  exists found copy' rank',
    sorted_set_contains u64_set_123 3 (Some 0) None
    = Some (found, copy', rank') /\
    (found = true <->
     exists x, In x (inorder (root_p u64_set_123)) /\
               is_match u64_set_123 3 x = true) /\
    (found = true ->
     exists x, copy' = Some x /\ In x (inorder (root_p u64_set_123)) /\
               is_match u64_set_123 3 x = true) /\
    (found = false -> copy' = Some 0).
Proof.
  split.
  - split; [exact u64_set_123_I1|]. split; [exact u64_set_123_rank_room|].
    split; [exact u64_order_laws | exact u64_set_123_I2].
  - exact (X5_contains_finds_exactly_the_stored_keys Z u64_set_123 3 0 None
             u64_set_123_I1 u64_set_123_rank_room u64_order_laws
             u64_set_123_I2).
Defined.

(** X13.  On a sorted set that satisfies I1, selection by rank is strictly
    increasing: for ranks [r1 < r2] within [1, n] the element selected at
    [r1] is less than the element selected at [r2]. *)
Theorem X13_select_by_rank_is_increasing (E : Type) (s : sorted_set_s E)
  (r1 r2 : Z) (buffer : E) :
  I1 (root_p s) -> sorted_set_get_num_elements s < u32_modulus ->
  I2 s (root_p s) ->
  1 <= r1 -> r1 < r2 -> r2 <= sorted_set_get_num_elements s ->
  exists x1 x2,
    sorted_set_get_element_by_rank s r1 (Some buffer) = Some (Some x1) /\
    sorted_set_get_element_by_rank s r2 (Some buffer) = Some (Some x2) /\
    is_less s x1 x2 = true.
Proof.
  unfold sorted_set_get_num_elements. intros H1 Hu H2 Hlo Hlt Hhi.
  destruct (get_element_by_rank_nth E s r1 (Some buffer) H1 Hu)
    as (x1 & Hrun1 & Hn1); [lia|].
  destruct (get_element_by_rank_nth E s r2 (Some buffer) H1 Hu)
    as (x2 & Hrun2 & Hn2); [lia|].
  exists x1, x2. split; [exact Hrun1|]. split; [exact Hrun2|].
  apply (sorted_nth E s _ H2 (Z.to_nat (r1 - 1)) (Z.to_nat (r2 - 1)));
    trivial; lia.
Qed.

Lemma X13_witness :
  (I1 (root_p u64_set_123) /\
   sorted_set_get_num_elements u64_set_123 < u32_modulus /\
   I2 u64_set_123 (root_p u64_set_123) /\
   1 <= 1 /\ 1 < 3 /\ 3 <= sorted_set_get_num_elements u64_set_123) /\
  exists x1 x2,
    sorted_set_get_element_by_rank u64_set_123 1 (Some 0) = Some (Some x1) /\
    sorted_set_get_element_by_rank u64_set_123 3 (Some 0) = Some (Some x2) /\
    is_less u64_set_123 x1 x2 = true.
Proof.
  assert (Ha : 1 <= 1) by discriminate.
  assert (Hb : 1 < 3) by reflexivity.
  assert (Hc : 3 <= sorted_set_get_num_elements u64_set_123)
    by (vm_compute; discriminate).
  split.
  - split; [exact u64_set_123_I1|]. split; [exact u64_set_123_u32|].
    split; [exact u64_set_123_I2|]. split; [exact Ha|].
    split; [exact Hb | exact Hc].
  - exact (X13_select_by_rank_is_increasing Z u64_set_123 1 3 0
             u64_set_123_I1 u64_set_123_u32 u64_set_123_I2 Ha Hb Hc).
Defined.

(** ** How the operations compose *)

(** What an insertion into a sorted set leaves behind. *)
Lemma insert_result (E : Type) (s : sorted_set_s E) (e : E)
  (rank_in : option Z) :
  I1 (root_p s) -> size (root_p s) < max_elements ->
  order_laws (is_match s) (is_less s) -> I2 s (root_p s) ->
  exists found T before after,
    sorted_set_insert s e rank_in
    = Some (found, set_root_p s T,
            option_map (fun _ => 1 + Z.of_nat (length before)) rank_in) /\
    inorder T = before ++ e :: after /\
    I1 T /\ I2 s T /\ size T <= max_elements /\
    Forall (fun y => is_less s y e = true) before /\
    Forall (fun y => is_less s e y = true) after /\
    if found
    then exists x, is_match s e x = true /\
                   inorder (root_p s) = before ++ x :: after /\
                   size T = size (root_p s)
    else inorder (root_p s) = before ++ after /\
         size T = size (root_p s) + 1.
Proof.
  intros H1 Hsz laws H2.
  destruct (insert_spec E s e rank_in H1 Hsz)
    as (found & T & before & after & Hrun & Hord & Hin & HT1 & _ & Hres).
  destruct (Hord laws H2) as [Hb Ha].
  exists found, T, before, after.
  split; [exact Hrun|]. split; [exact Hin|]. split; [exact HT1|].
  assert (Hsorted : I2 s T).
  { unfold I2 in *. rewrite Hin. apply sorted_insert_between; trivial.
    destruct found.
    - destruct Hres as (x & _ & Hx & _). rewrite Hx in H2.
      eapply sorted_remove_middle; eassumption.
    - destruct Hres as (Hx & _). now rewrite <- Hx. }
  split; [exact Hsorted|].
  destruct found.
  - destruct Hres as (x & Hm & Hx & Hsh & _).
    pose proof (shape_size _ _ _ _ Hsh) as Hs.
    split; [lia|]. split; [assumption|]. split; [assumption|].
    exists x. split; [assumption|]. split; assumption.
  - destruct Hres as (Hx & HTs & _).
    split; [lia|]. split; [assumption|]. split; [assumption|].
    split; assumption.
Qed.

(** X6.  Insert, then look up: after [sorted_set_insert(set, e)], whether
    [e] was new or replaced a stored element, [sorted_set_contains(set, e)]
    returns true, copies out exactly the payload [e] that was inserted, and
    reports the rank that the insertion reported. *)
Theorem X6_insert_then_contains (E : Type) (s : sorted_set_s E) (e : E)
  (old_rank : Z) :
  I1 (root_p s) -> sorted_set_get_num_elements s < max_elements ->
  order_laws (is_match s) (is_less s) -> I2 s (root_p s) ->
  exists found s' k,
    sorted_set_insert s e (Some old_rank) = Some (found, s', Some k) /\
    forall buffer old_rank',
      sorted_set_contains s' e (Some buffer) (Some old_rank')
      = Some (true, Some e, Some k).
Proof.
  unfold sorted_set_get_num_elements. intros H1 Hsz laws H2.
  destruct (insert_result E s e (Some old_rank) H1 Hsz laws H2)
    as (found & T & before & after & Hrun & Hin & HT1 & HT2 & HTs & Hb & Ha & _).
  exists found, (set_root_p s T), (1 + Z.of_nat (length before)).
  split; [exact Hrun|]. intros buffer old'.
  destruct (contains_spec E (set_root_p s T) e (Some buffer) (Some old'))
    as (found' & copy' & before' & after' & Hrun' & Hord' & Hres');
    cbn [set_root_p root_p]; trivial; [u32_side|].
  destruct (Hord' laws HT2) as [Hb' Ha'].
  cbn [set_root_p root_p is_match is_less] in *.
  rewrite Hrun'. destruct found'.
  - destruct Hres' as (x & Hm & -> & Hx).
    rewrite Hin in Hx.
    destruct (split_at_key E s laws e before after before' x after' Hx Hb Hb' Hm)
      as (-> & -> & ->).
    reflexivity.
  - destruct Hres' as [_ Hx]. exfalso.
    assert (He : In e (before' ++ after'))
      by (rewrite <- Hx, Hin; apply in_or_app; right; now left).
    pose proof (bounds_exclude_match E s e before' after' laws Hb' Ha' e He)
      as Hm.
    rewrite (match_refl laws) in Hm. discriminate.
Qed.

Lemma X6_witness :
  (I1 (root_p u64_set_123) /\
   sorted_set_get_num_elements u64_set_123 < max_elements /\
   order_laws (is_match u64_set_123) (is_less u64_set_123) /\
   I2 u64_set_123 (root_p u64_set_123)) /\
  exists found s' k,
    sorted_set_insert u64_set_123 7 (Some 0) = Some (found, s', Some k) /\
    forall buffer old_rank',
      sorted_set_contains s' 7 (Some buffer) (Some old_rank')
      = Some (true, Some 7, Some k).
Proof.
  split.
  - split; [exact u64_set_123_I1|]. split; [exact u64_set_123_small|].
    split; [exact u64_order_laws | exact u64_set_123_I2].
  - exact (X6_insert_then_contains Z u64_set_123 7 0 u64_set_123_I1
             u64_set_123_small u64_order_laws u64_set_123_I2).
Defined.

(** X12.  Inserting the same element a second time changes nothing: the
    second [sorted_set_insert(set, e)] returns true, reports the same rank
    and leaves the set exactly as the first one left it. *)
Theorem X12_second_insert_changes_nothing (E : Type) (s : sorted_set_s E)
  (e : E) (old_rank : Z) :
  I1 (root_p s) -> sorted_set_get_num_elements s < max_elements - 1 ->
  order_laws (is_match s) (is_less s) -> I2 s (root_p s) ->
  exists found s' k,
    sorted_set_insert s e (Some old_rank) = Some (found, s', Some k) /\
    forall old_rank',
      sorted_set_insert s' e (Some old_rank') = Some (true, s', Some k).
Proof.
  unfold sorted_set_get_num_elements. intros H1 Hsz laws H2.
  assert (Hroom : size (root_p s) < max_elements) by lia.
  destruct (insert_result E s e (Some old_rank) H1 Hroom laws H2) as
    (found & T & before & after & Hrun & Hin & HT1 & HT2 & HTs & Hb & Ha & Hres).
  exists found, (set_root_p s T), (1 + Z.of_nat (length before)).
  split; [exact Hrun|]. intros old'.
  assert (HTlt : size T < max_elements).
  { destruct found; [destruct Hres as (x & _ & _ & Hs) | destruct Hres as (_ & Hs)];
      lia. }
  destruct (insert_spec E (set_root_p s T) e (Some old') HT1 HTlt)
    as (found2 & T2 & before2 & after2 & Hrun2 & Hord2 & Hin2 & _ & _ & Hres2).
  destruct (Hord2 laws HT2) as [Hb2 Ha2].
  cbn [set_root_p root_p is_match is_less] in *.
  rewrite Hrun2. destruct found2.
  - destruct Hres2 as (x & Hm & Hx & _ & c0 & sz & c1 & ns & ds & Hp & ->).
    rewrite Hin in Hx.
    destruct (split_at_key E s laws e before after before2 x after2 Hx Hb Hb2 Hm)
      as (-> & -> & ->).
    rewrite (path_plug _ _ _ _ _ Hp). reflexivity.
  - destruct Hres2 as (Hx & _). exfalso.
    assert (He : In e (before2 ++ after2))
      by (rewrite <- Hx, Hin; apply in_or_app; right; now left).
    pose proof (bounds_exclude_match E s e before2 after2 laws Hb2 Ha2 e He)
      as Hm.
    rewrite (match_refl laws) in Hm. discriminate.
Qed.

Lemma X12_witness :
  (I1 (root_p u64_set_123) /\
   sorted_set_get_num_elements u64_set_123 < max_elements - 1 /\
   order_laws (is_match u64_set_123) (is_less u64_set_123) /\
   I2 u64_set_123 (root_p u64_set_123)) /\
  exists found s' k,
    sorted_set_insert u64_set_123 7 (Some 0) = Some (found, s', Some k) /\
    forall old_rank',
      sorted_set_insert s' 7 (Some old_rank') = Some (true, s', Some k).
Proof.
  assert (Hlt : sorted_set_get_num_elements u64_set_123 < max_elements - 1)
    by (vm_compute; reflexivity).
  split.
  - split; [exact u64_set_123_I1|]. split; [exact Hlt|].
    split; [exact u64_order_laws | exact u64_set_123_I2].
  - exact (X12_second_insert_changes_nothing Z u64_set_123 7 0
             u64_set_123_I1 Hlt u64_order_laws u64_set_123_I2).
Defined.

Section FilterFacts.

Variable E : Type.

Lemma filter_keep (f : E -> bool) (l : list E) :
  (forall y, In y l -> f y = true) -> filter f l = l.
Proof.
  induction l as [|a l IH]; intros H; [reflexivity|].
  simpl. rewrite (H a) by now left.
  f_equal. apply IH. intros y Hy. apply H. now right.
Qed.

Lemma existsb_none (f : E -> bool) (l : list E) :
  (forall y, In y l -> f y = false) -> existsb f l = false.
Proof.
  induction l as [|a l IH]; intros H; [reflexivity|].
  simpl. rewrite (H a) by now left.
  apply IH. intros y Hy. apply H. now right.
Qed.

Lemma firstn_skipn_middle (before after : list E) (x : E) :
  firstn (length before) (before ++ x :: after) = before /\
  skipn (S (length before)) (before ++ x :: after) = after.
Proof.
  split.
  - rewrite firstn_app, Nat.sub_diag, firstn_all. simpl. apply app_nil_r.
  - change (x :: after) with ([x] ++ after). rewrite app_assoc.
    replace (S (length before)) with (length (before ++ [x]))
      by (rewrite length_app; simpl; lia).
    rewrite skipn_app, Nat.sub_diag, skipn_all. reflexivity.
Qed.

End FilterFacts.

(** X7.  Removal by key deletes exactly the stored element that matches the
    key: [sorted_set_remove] returns whether some stored element matches,
    the in-order walk afterwards is the walk before with the matching
    element dropped, every other element staying in place, and the element
    count goes down by one exactly when it returns true. *)
Theorem X7_remove_deletes_exactly_the_matching_element (E : Type)
  (s : sorted_set_s E) (e : E) :
  I1 (root_p s) -> sorted_set_get_num_elements s <= max_elements ->
  order_laws (is_match s) (is_less s) -> I2 s (root_p s) ->
  exists found s',
    sorted_set_remove s e None = Some (found, s', None) /\
    found = existsb (is_match s e) (walk_in_order s (@record_element E) []) /\
    walk_in_order s' (@record_element E) []
    = filter (fun y => negb (is_match s e y))
        (walk_in_order s (@record_element E) []) /\
    sorted_set_get_num_elements s'
    = sorted_set_get_num_elements s - (if found then 1 else 0).
Proof.
  unfold sorted_set_get_num_elements, walk_in_order.
  intros H1 Hsz laws H2.
  destruct (remove_spec E s e None H1 Hsz)
    as (found & T & before & after & Hrun & Hord & Hin & _ & _ & Hres).
  destruct (Hord laws H2) as [Hb Ha].
  pose proof (bounds_exclude_match E s e before after laws Hb Ha) as Hno.
  exists found, (set_root_p s T). split; [exact Hrun|].
  cbn [set_root_p root_p].
  rewrite !(proj1 (walk_record E _ [])). cbn [app].
  assert (Hkeep : filter (fun y => negb (is_match s e y)) (before ++ after)
                  = before ++ after).
  { apply filter_keep. intros y Hy. now rewrite (Hno y Hy). }
  destruct found.
  - destruct Hres as (x & Hm & Hx & Hs).
    rewrite Hx, Hin. split; [|split; [|lia]].
    + rewrite existsb_app. simpl. rewrite Hm.
      now rewrite orb_true_r.
    + rewrite filter_app. simpl. rewrite Hm. simpl.
      rewrite <- filter_app. now rewrite Hkeep.
  - subst T. rewrite Hin.
    split; [|split; [|lia]].
    + symmetry. now apply existsb_none.
    + now rewrite Hkeep.
Qed.

Lemma X7_witness :
  (I1 (root_p u64_set_123) /\
   sorted_set_get_num_elements u64_set_123 <= max_elements /\
   order_laws (is_match u64_set_123) (is_less u64_set_123) /\
   I2 u64_set_123 (root_p u64_set_123)) /\
  exists found s',
    sorted_set_remove u64_set_123 2 None = Some (found, s', None) /\
    found = existsb (is_match u64_set_123 2)
              (walk_in_order u64_set_123 (@record_element Z) []) /\
    walk_in_order s' (@record_element Z) []
    = filter (fun y => negb (is_match u64_set_123 2 y))
        (walk_in_order u64_set_123 (@record_element Z) []) /\
    sorted_set_get_num_elements s'
    = sorted_set_get_num_elements u64_set_123 - (if found then 1 else 0).
Proof.
  split.
  - split; [exact u64_set_123_I1|]. split; [exact u64_set_123_le|].
    split; [exact u64_order_laws | exact u64_set_123_I2].
  - exact (X7_remove_deletes_exactly_the_matching_element Z u64_set_123 2
             u64_set_123_I1 u64_set_123_le u64_order_laws u64_set_123_I2).
Defined.

(** X10.  Insert, then remove: inserting an element whose key is not in
    the set and then removing it by key gives back a set with the same
    in-order walk and the same element count as before the insertion; the
    insertion returns false (nothing was replaced) and the removal true. *)
Theorem X10_insert_then_remove_restores_the_contents (E : Type)
  (s : sorted_set_s E) (e : E) :
  I1 (root_p s) -> sorted_set_get_num_elements s < max_elements ->
  order_laws (is_match s) (is_less s) -> I2 s (root_p s) ->
  (forall y, In y (walk_in_order s (@record_element E) []) ->
             is_match s e y = false) ->
  exists s1 s2,
    sorted_set_insert s e None = Some (false, s1, None) /\
    sorted_set_remove s1 e None = Some (true, s2, None) /\
    walk_in_order s2 (@record_element E) []
    = walk_in_order s (@record_element E) [] /\
    sorted_set_get_num_elements s2 = sorted_set_get_num_elements s.
Proof.
  unfold sorted_set_get_num_elements, walk_in_order.
  rewrite (proj1 (walk_record E (root_p s) [])). cbn [app].
  intros H1 Hsz laws H2 Habsent.
  destruct (insert_result E s e None H1 Hsz laws H2)
    as (found & T & before & after & Hrun & Hin & HT1 & HT2 & HTs & Hb & Ha & Hres).
  destruct found.
  { destruct Hres as (x & Hm & Hx & _). exfalso.
    rewrite (Habsent x) in Hm; [discriminate|].
    rewrite Hx. apply in_or_app. right. now left. }
  destruct Hres as [Hx Hs].
  destruct (remove_spec E (set_root_p s T) e None HT1 HTs)
    as (found' & T' & before' & after' & Hrun' & Hord' & Hin' & _ & _ & Hres').
  destruct (Hord' laws HT2) as [Hb' Ha'].
  cbn [set_root_p root_p is_match is_less] in *.
  exists (set_root_p s T), (set_root_p s T').
  split; [exact Hrun|].
  rewrite (proj1 (walk_record E _ [])). cbn [app set_root_p root_p].
  destruct found'.
  - destruct Hres' as (x & Hm & Hx' & Hs').
    rewrite Hin in Hx'.
    destruct (split_at_key E s laws e before after before' x after' Hx' Hb Hb' Hm)
      as (-> & -> & ->).
    split; [exact Hrun'|]. split; [congruence | lia].
  - exfalso. subst T'.
    assert (He : In e (before' ++ after'))
      by (rewrite <- Hin', Hin; apply in_or_app; right; now left).
    pose proof (bounds_exclude_match E s e before' after' laws Hb' Ha' e He)
      as Hm.
    rewrite (match_refl laws) in Hm. discriminate.
Qed.

Lemma X10_witness :
  (I1 (root_p u64_set_123) /\
   sorted_set_get_num_elements u64_set_123 < max_elements /\
   order_laws (is_match u64_set_123) (is_less u64_set_123) /\
   I2 u64_set_123 (root_p u64_set_123) /\
   (forall y, In y (walk_in_order u64_set_123 (@record_element Z) []) ->
              is_match u64_set_123 7 y = false)) /\
  exists s1 s2,
    sorted_set_insert u64_set_123 7 None = Some (false, s1, None) /\
    sorted_set_remove s1 7 None = Some (true, s2, None) /\
    walk_in_order s2 (@record_element Z) []
    = walk_in_order u64_set_123 (@record_element Z) [] /\
    sorted_set_get_num_elements s2 = sorted_set_get_num_elements u64_set_123.
Proof.
  assert (Habsent :
            forall y, In y (walk_in_order u64_set_123 (@record_element Z) []) ->
                      is_match u64_set_123 7 y = false).
  { intros y [<- | [<- | [<- | []]]]; reflexivity. }
  split.
  - split; [exact u64_set_123_I1|]. split; [exact u64_set_123_small|].
    split; [exact u64_order_laws|]. split; [exact u64_set_123_I2|].
    exact Habsent.
  - exact (X10_insert_then_remove_restores_the_contents Z u64_set_123 7
             u64_set_123_I1 u64_set_123_small u64_order_laws u64_set_123_I2
             Habsent).
Defined.

(** X8.  Removal by rank deletes the element that selection by rank
    returns: for a rank between 1 and the element count,
    [sorted_set_remove_by_rank] copies out the same element as
    [sorted_set_get_element_by_rank], the in-order walk afterwards is the
    walk before without its entry at that rank, and the element count goes
    down by one.  No property of the comparison callbacks is needed. *)
Theorem X8_remove_by_rank_deletes_the_selected_element (E : Type)
  (s : sorted_set_s E) (rank : Z) (buffer : E) :
  I1 (root_p s) -> sorted_set_get_num_elements s <= max_elements ->
  1 <= rank -> rank <= sorted_set_get_num_elements s ->
  exists x s',
    sorted_set_get_element_by_rank s rank (Some buffer) = Some (Some x) /\
    sorted_set_remove_by_rank s rank (Some buffer) = Some (s', Some x) /\
    walk_in_order s' (@record_element E) []
    = firstn (Z.to_nat (rank - 1)) (walk_in_order s (@record_element E) [])
      ++ skipn (Z.to_nat rank) (walk_in_order s (@record_element E) []) /\
    sorted_set_get_num_elements s' = sorted_set_get_num_elements s - 1.
Proof.
  unfold sorted_set_get_num_elements, walk_in_order.
  rewrite (proj1 (walk_record E (root_p s) [])). cbn [app].
  intros H1 Hsz Hlo Hhi.
  assert (Hu : size (root_p s) < u32_modulus) by u32_side.
  destruct (get_element_by_rank_spec E s rank (Some buffer) H1 Hu)
    as (before & x & after & Hrun & Hin & Hlen); [lia|].
  destruct (remove_by_rank_spec E s rank (Some buffer) H1 Hsz)
    as (T & before' & x' & after' & Hrun' & Hin' & Hlen' & HT & _ & Hs & _);
    [lia|].
  rewrite Hin in Hin'.
  destruct (app_cons_inj E before x after before' x' after' Hin')
    as (<- & <- & <-); [lia|].
  exists x, (set_root_p s T).
  split; [exact Hrun|]. split; [exact Hrun'|].
  rewrite (proj1 (walk_record E _ [])). cbn [app set_root_p root_p].
  split; [|exact Hs].
  rewrite HT, Hin.
  replace (Z.to_nat (rank - 1)) with (length before) by lia.
  replace (Z.to_nat rank) with (S (length before)) by lia.
  destruct (firstn_skipn_middle E before after x) as [-> ->].
  reflexivity.
Qed.

Lemma X8_witness :
  (I1 (root_p u64_set_123) /\
   sorted_set_get_num_elements u64_set_123 <= max_elements /\
   1 <= 2 /\ 2 <= sorted_set_get_num_elements u64_set_123) /\
  exists x s',
    sorted_set_get_element_by_rank u64_set_123 2 (Some 0) = Some (Some x) /\
    sorted_set_remove_by_rank u64_set_123 2 (Some 0) = Some (s', Some x) /\
    walk_in_order s' (@record_element Z) []
    = firstn (Z.to_nat (2 - 1))
        (walk_in_order u64_set_123 (@record_element Z) [])
      ++ skipn (Z.to_nat 2)
           (walk_in_order u64_set_123 (@record_element Z) []) /\
    sorted_set_get_num_elements s'
    = sorted_set_get_num_elements u64_set_123 - 1.
Proof.
  assert (Ha : 1 <= 2) by discriminate.
  assert (Hb : 2 <= sorted_set_get_num_elements u64_set_123)
    by (vm_compute; discriminate).
  split.
  - split; [exact u64_set_123_I1|]. split; [exact u64_set_123_le|].
    split; [exact Ha | exact Hb].
  - exact (X8_remove_by_rank_deletes_the_selected_element Z u64_set_123 2 0
             u64_set_123_I1 u64_set_123_le Ha Hb).
Defined.

(** X9.  Ranks after a removal by rank: once the element of rank [rank] is
    removed, every rank below [rank] still selects the element it selected
    before, and every rank from [rank] on selects the element that had the
    next rank before. *)
Theorem X9_ranks_shift_down_after_remove_by_rank (E : Type)
  (s : sorted_set_s E) (rank k : Z) (buffer : E) :
  I1 (root_p s) -> sorted_set_get_num_elements s <= max_elements ->
  1 <= rank -> rank <= sorted_set_get_num_elements s ->
  1 <= k -> k <= sorted_set_get_num_elements s - 1 ->
  exists s' x,
    sorted_set_remove_by_rank s rank None = Some (s', None) /\
    sorted_set_get_element_by_rank s' k (Some buffer) = Some (Some x) /\
    sorted_set_get_element_by_rank s (if k <? rank then k else k + 1)
      (Some buffer) = Some (Some x).
Proof.
  unfold sorted_set_get_num_elements.
  intros H1 Hsz Hlo Hhi Hklo Hkhi.
  assert (Hu : size (root_p s) < u32_modulus) by u32_side.
  destruct (remove_by_rank_spec E s rank None H1 Hsz)
    as (T & before & x & after & Hrun & Hin & Hlen & HT & HT1 & Hs & _);
    [lia|].
  assert (HuT : size (root_p (set_root_p s T)) < u32_modulus)
    by (cbn [set_root_p root_p]; lia).
  destruct (get_element_by_rank_nth E (set_root_p s T) k (Some buffer) HT1 HuT)
    as (y & Hrun1 & Hn1); [cbn [set_root_p root_p]; lia|].
  destruct (get_element_by_rank_nth E s (if k <? rank then k else k + 1)
              (Some buffer) H1 Hu)
    as (y' & Hrun2 & Hn2); [destruct (Z.ltb_spec k rank); lia|].
  exists (set_root_p s T), y.
  split; [exact Hrun|]. split; [exact Hrun1|].
  rewrite Hrun2. cbn [option_map]. do 2 f_equal.
  cbn [set_root_p root_p] in Hn1. rewrite HT in Hn1. rewrite Hin in Hn2.
  destruct (Z.ltb_spec k rank) as [Hlt | Hge].
  - rewrite nth_error_app1 in Hn1, Hn2 by lia. congruence.
  - rewrite nth_error_app2 in Hn1, Hn2 by lia.
    replace (Z.to_nat (k + 1 - 1) - length before)%nat
      with (S (Z.to_nat (k - 1) - length before)) in Hn2 by lia.
    simpl in Hn2. congruence.
Qed.

Lemma X9_witness :
  (I1 (root_p u64_set_123) /\
   sorted_set_get_num_elements u64_set_123 <= max_elements /\
   1 <= 2 /\ 2 <= sorted_set_get_num_elements u64_set_123 /\
   1 <= 2 /\ 2 <= sorted_set_get_num_elements u64_set_123 - 1) /\
  exists s' x,
    sorted_set_remove_by_rank u64_set_123 2 None = Some (s', None) /\
    sorted_set_get_element_by_rank s' 2 (Some 0) = Some (Some x) /\
    sorted_set_get_element_by_rank u64_set_123 (if 2 <? 2 then 2 else 2 + 1)
      (Some 0) = Some (Some x).
Proof.
  assert (Ha : 1 <= 2) by discriminate.
  assert (Hb : 2 <= sorted_set_get_num_elements u64_set_123)
    by (vm_compute; discriminate).
  assert (Hc : 2 <= sorted_set_get_num_elements u64_set_123 - 1)
    by (vm_compute; discriminate).
  split.
  - split; [exact u64_set_123_I1|]. split; [exact u64_set_123_le|].
    split; [exact Ha|]. split; [exact Hb|]. split; [exact Ha | exact Hc].
  - exact (X9_ranks_shift_down_after_remove_by_rank Z u64_set_123 2 2 0
             u64_set_123_I1 u64_set_123_le Ha Hb Ha Hc).
Defined.

(** ** The insertion loop of the test, for any array *)





(** ** What an insertion changes *)

Lemma filter_drop (E : Type) (f : E -> bool) (l : list E) :
  (forall y, In y l -> f y = false) -> filter f l = [].
Proof.
  induction l as [|a l IH]; intros H; [reflexivity|].
  simpl. rewrite (H a) by now left.
  apply IH. intros y Hy. apply H. now right.
Qed.

(** X14.  Insertion touches only the element that matches the key:
    [sorted_set_insert(set, e)] returns whether some stored element matched
    [e]; afterwards the in-order walk holds exactly one element matching
    [e], namely the payload [e] itself, the elements that do not match [e]
    are the same as before and in the same order, and the element count
    grows by one exactly when the call returns false. *)
Theorem X14_insert_changes_only_the_matching_element (E : Type)
  (s : sorted_set_s E) (e : E) :
  I1 (root_p s) -> sorted_set_get_num_elements s < max_elements ->
  order_laws (is_match s) (is_less s) -> I2 s (root_p s) ->
  exists found s',
    sorted_set_insert s e None = Some (found, s', None) /\
    found = existsb (is_match s e) (walk_in_order s (@record_element E) []) /\
    filter (is_match s e) (walk_in_order s' (@record_element E) []) = [e] /\
    filter (fun y => negb (is_match s e y))
      (walk_in_order s' (@record_element E) [])
    = filter (fun y => negb (is_match s e y))
        (walk_in_order s (@record_element E) []) /\
    sorted_set_get_num_elements s'
    = sorted_set_get_num_elements s + (if found then 0 else 1).
Proof.
  unfold sorted_set_get_num_elements, walk_in_order.
  intros H1 Hsz laws H2.
  destruct (insert_result E s e None H1 Hsz laws H2)
    as (found & T & before & after & Hrun & Hin & _ & _ & _ & Hb & Ha & Hres).
  pose proof (bounds_exclude_match E s e before after laws Hb Ha) as Hno.
  assert (Hnob : forall y, In y before -> is_match s e y = false)
    by (intros y Hy; apply Hno, in_or_app; now left).
  assert (Hnoa : forall y, In y after -> is_match s e y = false)
    by (intros y Hy; apply Hno, in_or_app; now right).
  exists found, (set_root_p s T). split; [exact Hrun|].
  cbn [set_root_p root_p].
  rewrite !(proj1 (walk_record E _ [])). cbn [app]. rewrite Hin.
  assert (Hone : filter (is_match s e) (before ++ e :: after) = [e]).
  { rewrite filter_app. simpl. rewrite (match_refl laws).
    now rewrite (filter_drop E _ before Hnob), (filter_drop E _ after Hnoa). }
  assert (Hrest : forall x, is_match s e x = true ->
                    filter (fun y => negb (is_match s e y))
                      (before ++ x :: after)
                    = filter (fun y => negb (is_match s e y))
                        (before ++ after)).
  { intros x Hm. rewrite !filter_app. simpl. now rewrite Hm. }
  destruct found.
  - destruct Hres as (x & Hm & Hx & Hs). rewrite Hx.
    split; [|split; [exact Hone|split; [|lia]]].
    + rewrite existsb_app. simpl. rewrite Hm. now rewrite orb_true_r.
    + rewrite (Hrest e (match_refl laws e)). now rewrite (Hrest x Hm).
  - destruct Hres as [Hx Hs]. rewrite Hx.
    split; [|split; [exact Hone|split; [|lia]]].
    + symmetry. now apply existsb_none.
    + exact (Hrest e (match_refl laws e)).
Qed.

Lemma X14_witness :
  (I1 (root_p u64_set_123) /\
   sorted_set_get_num_elements u64_set_123 < max_elements /\
   order_laws (is_match u64_set_123) (is_less u64_set_123) /\
   I2 u64_set_123 (root_p u64_set_123)) /\
  exists found s',
    sorted_set_insert u64_set_123 7 None = Some (found, s', None) /\
    found = existsb (is_match u64_set_123 7)
              (walk_in_order u64_set_123 (@record_element Z) []) /\
    filter (is_match u64_set_123 7) (walk_in_order s' (@record_element Z) [])
    = [7] /\
    filter (fun y => negb (is_match u64_set_123 7 y))
      (walk_in_order s' (@record_element Z) [])
    = filter (fun y => negb (is_match u64_set_123 7 y))
        (walk_in_order u64_set_123 (@record_element Z) []) /\
    sorted_set_get_num_elements s'
    = sorted_set_get_num_elements u64_set_123 + (if found then 0 else 1).
Proof.
  split.
  - split; [exact u64_set_123_I1|]. split; [exact u64_set_123_small|].
    split; [exact u64_order_laws | exact u64_set_123_I2].
  - exact (X14_insert_changes_only_the_matching_element Z u64_set_123 7
             u64_set_123_I1 u64_set_123_small u64_order_laws u64_set_123_I2).
Defined.

(** X15.  The element count is the number of elements a walk visits: for
    every set reached from a freshly created one by insertions (into sets
    of fewer than [max_elements] elements), removals and removals by rank,
    [sorted_set_get_num_elements] equals the length of the sequence handed
    to the callback of [walk_in_order], and it never exceeds
    [max_elements]. *)
Theorem X15_element_count_is_the_length_of_the_walk (E : Type)
  (num_bytes : Z) (matches less : E -> E -> bool) (s : sorted_set_s E) :
  reachable max_elements (sorted_set_create num_bytes matches less) s ->
  sorted_set_get_num_elements s
  = Z.of_nat (length (walk_in_order s (@record_element E) [])) /\
  sorted_set_get_num_elements s <= max_elements.
Proof.
  intros Hreach.
  destruct (reachable_invariant E max_elements _ s (Z.le_refl _)
              (create_invariant E num_bytes matches less) Hreach)
    as ((H1 & _ & Hmax & _) & _).
  unfold sorted_set_get_num_elements, walk_in_order.
  rewrite (proj1 (walk_record E (root_p s) [])). cbn [app].
  split; [now apply I1_size_length | exact Hmax].
Qed.

Lemma X15_witness :
  reachable max_elements (sorted_set_create 8 is_match_u64 is_less_u64)
    u64_set_123 /\
  sorted_set_get_num_elements u64_set_123
  = Z.of_nat (length (walk_in_order u64_set_123 (@record_element Z) [])) /\
  sorted_set_get_num_elements u64_set_123 <= max_elements.
Proof.
  split; [exact u64_reachable_123|].
  exact (X15_element_count_is_the_length_of_the_walk Z 8 is_match_u64
           is_less_u64 u64_set_123 u64_reachable_123).
Defined.
